(** * WeakPool: a two-tier (strong / weak) object pool

    A shallow embedding of [src/WeakPool.ts] and [src/defaultPoolScalingAlgo.ts]
    (package [weak-pool]) together with the properties of the pool that the
    specification states.

    Layout of the development:
    - [JsNumber]: the few operations on IEEE-754 doubles the default scaling
      algorithm needs, on Rocq's primitive binary64 floats;
    - [ScalingAlgo]: [defaultPoolScalingAlgo];
    - [JsSet], [JsArray]: insertion-ordered sets and arrays as lists;
    - [WeakPool]: the pool class, in a small state-and-exception monad;
    - [WeakPoolUtils], [WeakPoolStates]: the helpers of the test suite and
      what a pool holds;
    - [WeakPoolV1]: the first version of the class in [WeakPool.ts];
    - the theorems. *)

From Stdlib Require Import ZArith List Bool Lia Arith.
From Stdlib Require Import Floats.
Import ListNotations.

Set Warnings "-inexact-float".

(* ===================================================================== *)
(** ** JavaScript numbers *)
(* ===================================================================== *)

Module JsNumber.

Local Open Scope float_scope.

(** An integer as a double. Exact for [0 <= n < 2^53]. *)
Definition of_Z (n : Z) : float :=
  if (n <? 0)%Z then - PrimFloat.of_uint63 (Uint63.of_Z (- n))
  else PrimFloat.of_uint63 (Uint63.of_Z n).

(** [x === y] on numbers: IEEE equality ([-0 === 0], [NaN !== NaN]). *)
Definition strict_eq (x y : float) : bool := PrimFloat.eqb x y.

(** [Math.ceil]. A finite double is [(-1)^s * m * 2^e]; when [e < 0] the
    integer part is [m / 2^(-e)] and the value is already an integer
    otherwise. Zeros, infinities and NaN are returned unchanged. *)
Definition Math_ceil (x : float) : float :=
  match Prim2SF x with
  | S754_finite s m e =>
      if (0 <=? e)%Z then x
      else
        let d := (2 ^ (- e))%Z in
        let q := (Zpos m / d)%Z in
        let exact := (Zpos m mod d =? 0)%Z in
        if s then (if (q =? 0)%Z then (-0) else - of_Z q)
        else of_Z (if exact then q else q + 1)
  | _ => x
  end.

(** The integer a double denotes, if it denotes one. *)
Definition to_Z (x : float) : option Z :=
  match Prim2SF x with
  | S754_zero _ => Some 0%Z
  | S754_finite s m e =>
      let n :=
        if (0 <=? e)%Z then Some (Zpos m * 2 ^ e)%Z
        else if (Zpos m mod 2 ^ (- e) =? 0)%Z then Some (Zpos m / 2 ^ (- e))%Z
        else None in
      if s then option_map Z.opp n else n
  | _ => None
  end.

(** [Math.max] of two arguments: NaN if either is NaN, and [+0] is larger
    than [-0]. *)
Definition Math_max (x y : float) : float :=
  if is_nan x || is_nan y then nan
  else if x <? y then y
  else if y <? x then x
  else if get_sign x then y else x.

End JsNumber.

(* ===================================================================== *)
(** ** The default scaling algorithm ([defaultPoolScalingAlgo.ts]) *)
(* ===================================================================== *)

Module ScalingAlgo.

Import JsNumber.
Local Open Scope float_scope.

Definition DEFAULT_MAX_STRONG_POOL_SIZE : float := 5.
Definition POOL_SCALING_FACTOR : float := 0.2.
Definition MIN_POOL_TO_ACTIVE_RATIO : float := 0.1.
Definition MAX_POOL_TO_ACTIVE_RATIO : float := 0.5.

(** The function takes the five statistics of [PoolScalingSignature] and
    reads the first two only. *)
Definition defaultPoolScalingAlgo
    (numActiveObjects curMaxStrongPoolSize
     numStrongPooledRefs numWeakPooledRefs numGC : float) : float :=
  if strict_eq numActiveObjects 0 then DEFAULT_MAX_STRONG_POOL_SIZE
  else
    let poolToActiveRatio := curMaxStrongPoolSize / numActiveObjects in
    if (poolToActiveRatio <? MIN_POOL_TO_ACTIVE_RATIO)
       || (MAX_POOL_TO_ACTIVE_RATIO <? poolToActiveRatio)
    then Math_max (Math_ceil (numActiveObjects * POOL_SCALING_FACTOR))
                  DEFAULT_MAX_STRONG_POOL_SIZE
    else Math_max curMaxStrongPoolSize DEFAULT_MAX_STRONG_POOL_SIZE.

(** The same function on integer statistics: the value the pool receives
    when all its counters are integers. *)
Definition defaultOnIntegers (numActive curMax : Z) : float :=
  defaultPoolScalingAlgo (of_Z numActive) (of_Z curMax) 0 0 0.

(** The policy as the specification words it, on non-negative integer
    statistics and with exact arithmetic: the ratio [curMax / numActive]
    is below [1/10] when [10 * curMax < numActive] and above [1/2] when
    [numActive < 2 * curMax]; [ceil (numActive * 0.2)] is
    [ceil (numActive / 5)]. *)
Definition spec_defaultPoolScalingAlgo (numActive curMax : Z) : Z :=
  if (numActive =? 0)%Z then 5%Z
  else if ((10 * curMax <? numActive) || (numActive <? 2 * curMax))%Z
       then Z.max ((numActive + 4) / 5) 5
       else Z.max curMax 5.

(** Whether the code and the specification's wording agree on every pair
    of statistics below [bound]. *)
Definition agree_below (bound : nat) : bool :=
  forallb (fun a =>
    forallb (fun c =>
      match to_Z (defaultOnIntegers (Z.of_nat a) (Z.of_nat c)) with
      | Some n => (n =? spec_defaultPoolScalingAlgo (Z.of_nat a) (Z.of_nat c))%Z
      | None => false
      end) (seq 0 bound)) (seq 0 bound).

End ScalingAlgo.

(* ===================================================================== *)
(** ** Arrays and insertion-ordered sets *)
(* ===================================================================== *)

(** A JavaScript array used as a stack: [push] appends at the end and
    returns the new length, [pop] removes the last element and returns it,
    or returns [undefined] ([None]) and leaves an empty array empty. *)
Module JsArray.
Section Elements.
Context {T : Type}.

Definition length (a : list T) : Z := Z.of_nat (List.length a).

Definition push (a : list T) (x : T) : list T * Z :=
  (a ++ [x], (length a + 1)%Z).

Definition pop (a : list T) : option T * list T :=
  match rev a with
  | [] => (None, a)
  | x :: r => (Some x, rev r)
  end.
End Elements.

Definition includes (a : list nat) (x : nat) : bool :=
  existsb (Nat.eqb x) a.
End JsArray.

(** A JavaScript [Set]: a duplicate-free list in insertion order, which is
    the order a [for ... of] loop visits. *)
Module JsSet.
Section Elements.
Context {T : Type}.
Variable eqb : T -> T -> bool.

Definition has (s : list T) (x : T) : bool := existsb (eqb x) s.

Definition add (s : list T) (x : T) : list T :=
  if has s x then s else s ++ [x].

(** [delete] returns the set without [x]; its boolean result is
    [has s x]. *)
Definition delete (s : list T) (x : T) : list T :=
  filter (fun y => negb (eqb x y)) s.

Definition size (s : list T) : Z := Z.of_nat (List.length s).
End Elements.
End JsSet.

(* ===================================================================== *)
(** ** The pool ([WeakPool.ts]) *)
(* ===================================================================== *)

Module WeakPool.

Local Open Scope Z_scope.

(** Objects are opaque to the pool: only their identity matters. *)
Definition Obj := nat.

(** [getWeakRef] (package [weak-ref-cache]) hands out one [WeakRef] per
    object, so a reference is determined by its target. *)
Inductive WeakRef : Type := WeakRefOf (target : Obj).

Definition target (r : WeakRef) : Obj := let (o) := r in o.

Definition getWeakRef (obj : Obj) : WeakRef := WeakRefOf obj.

Definition WeakRef_eqb (a b : WeakRef) : bool := Nat.eqb (target a) (target b).

Definition WeakRef_eq_dec (a b : WeakRef) : {a = b} + {a <> b} :=
  match a, b with
  | WeakRefOf x, WeakRefOf y =>
      match Nat.eq_dec x y with
      | left e => left (f_equal WeakRefOf e)
      | right n =>
          right (fun h : WeakRefOf x = WeakRefOf y => n (f_equal target h))
      end
  end.

(** Thrown values. [UserError] stands for whatever a callback throws. *)
Inductive Exn : Type :=
| RangeError
| TypeError
| UserError (tag : nat).

Inductive completion (A : Type) : Type :=
| Normal (a : A)
| Throw (e : Exn).
Arguments Normal {A} a.
Arguments Throw {A} e.

(** [(numActiveObjects, curMaxStrongPoolSize, numStrongPooledRefs,
    numWeakPooledRefs, numGC) => new capacity]. The statistics the pool
    passes are sizes and counters, hence integers; the capacity it gets
    back is a size and is taken to be an integer as well. *)
Definition PoolScalingSignature : Type := Z -> Z -> Z -> Z -> Z -> Z.

(** [Number.MAX_SAFE_INTEGER]. Up to it, [n++] is exact on doubles. *)
Definition MAX_SAFE_INTEGER : Z := 2 ^ 53 - 1.

(** The private fields of the class. *)
Record Pool : Type := mkPool {
  weakPool : list WeakRef;
  strongPool : list Obj;
  activeObjects : list WeakRef;
  poolSizeUpdateScheduled : bool;
  numGC : Z;
  numActiveGC : Z;
  maxStrongPoolSize : Z
}.

(** What the pool touches outside itself: the objects the memory manager
    has reclaimed (so that [deref] answers [undefined] for them), the
    registrations made with the [FinalizationRegistry], the number of
    pending [setTimeout(this.#updatePoolSize, 0)] tasks, and how many
    times the [create] callback has been called. *)
Record Host : Type := mkHost {
  collected : list Obj;
  registry : list (Obj * WeakRef);
  timers : nat;
  factoryCalls : nat
}.

Record World : Type := mkWorld { pool : Pool; host : Host }.

Definition with_weakPool (v : list WeakRef) (p : Pool) : Pool :=
  mkPool v (strongPool p) (activeObjects p) (poolSizeUpdateScheduled p)
         (numGC p) (numActiveGC p) (maxStrongPoolSize p).
Definition with_strongPool (v : list Obj) (p : Pool) : Pool :=
  mkPool (weakPool p) v (activeObjects p) (poolSizeUpdateScheduled p)
         (numGC p) (numActiveGC p) (maxStrongPoolSize p).
Definition with_activeObjects (v : list WeakRef) (p : Pool) : Pool :=
  mkPool (weakPool p) (strongPool p) v (poolSizeUpdateScheduled p)
         (numGC p) (numActiveGC p) (maxStrongPoolSize p).
Definition with_poolSizeUpdateScheduled (v : bool) (p : Pool) : Pool :=
  mkPool (weakPool p) (strongPool p) (activeObjects p) v
         (numGC p) (numActiveGC p) (maxStrongPoolSize p).
Definition with_numGC (v : Z) (p : Pool) : Pool :=
  mkPool (weakPool p) (strongPool p) (activeObjects p)
         (poolSizeUpdateScheduled p) v (numActiveGC p) (maxStrongPoolSize p).
Definition with_numActiveGC (v : Z) (p : Pool) : Pool :=
  mkPool (weakPool p) (strongPool p) (activeObjects p)
         (poolSizeUpdateScheduled p) (numGC p) v (maxStrongPoolSize p).
Definition with_maxStrongPoolSize (v : Z) (p : Pool) : Pool :=
  mkPool (weakPool p) (strongPool p) (activeObjects p)
         (poolSizeUpdateScheduled p) (numGC p) (numActiveGC p) v.

(** *** Computations

    A method body runs on the world and completes normally or abruptly.
    A thrown exception keeps every mutation made before it. *)
Definition JS (A : Type) : Type := World -> completion A * World.

Definition ret {A} (a : A) : JS A := fun w => (Normal a, w).

Definition throw {A} (e : Exn) : JS A := fun w => (Throw e, w).

Definition bind {A B} (m : JS A) (k : A -> JS B) : JS B :=
  fun w =>
    match m w with
    | (Normal a, w') => k a w'
    | (Throw e, w') => (Throw e, w')
    end.

Declare Scope js_scope.
Delimit Scope js_scope with js.
Notation "x <- m ;; k" := (bind m (fun x => k))
  (at level 61, m at next level, right associativity) : js_scope.
Notation "m ;; k" := (bind m (fun _ => k))
  (at level 61, right associativity) : js_scope.
Local Open Scope js_scope.

Definition read {A} (f : Pool -> A) : JS A :=
  fun w => (Normal (f (pool w)), w).

Definition write (f : Pool -> Pool) : JS unit :=
  fun w => (Normal tt, mkWorld (f (pool w)) (host w)).

(** **** Primitive accesses *)

Definition strongPool_length : JS Z :=
  read (fun p => JsArray.length (strongPool p)).

Definition strongPool_pop : JS (option Obj) :=
  a <- read strongPool ;;
  write (with_strongPool (snd (JsArray.pop a))) ;;
  ret (fst (JsArray.pop a)).

Definition strongPool_push (obj : Obj) : JS Z :=
  a <- read strongPool ;;
  write (with_strongPool (fst (JsArray.push a obj))) ;;
  ret (snd (JsArray.push a obj)).

Definition weakPool_size : JS Z :=
  read (fun p => JsSet.size (weakPool p)).

Definition weakPool_add (r : WeakRef) : JS unit :=
  write (fun p => with_weakPool (JsSet.add WeakRef_eqb (weakPool p) r) p).

Definition weakPool_delete (r : WeakRef) : JS bool :=
  s <- read weakPool ;;
  write (with_weakPool (JsSet.delete WeakRef_eqb s r)) ;;
  ret (JsSet.has WeakRef_eqb s r).

Definition activeObjects_add (r : WeakRef) : JS unit :=
  write (fun p =>
           with_activeObjects (JsSet.add WeakRef_eqb (activeObjects p) r) p).

Definition activeObjects_delete (r : WeakRef) : JS bool :=
  s <- read activeObjects ;;
  write (with_activeObjects (JsSet.delete WeakRef_eqb s r)) ;;
  ret (JsSet.has WeakRef_eqb s r).

(** [weakObj.deref()]: the target, unless it has been reclaimed. *)
Definition deref (r : WeakRef) : JS (option Obj) :=
  fun w =>
    (Normal (if JsArray.includes (collected (host w)) (target r)
             then None else Some (target r)), w).

(** [this.#objFinalizer.register(obj, weakObj)]. *)
Definition objFinalizer_register (obj : Obj) (r : WeakRef) : JS unit :=
  fun w =>
    (Normal tt,
     mkWorld (pool w)
             (mkHost (collected (host w)) ((obj, r) :: registry (host w))
                     (timers (host w)) (factoryCalls (host w)))).

(** [setTimeout(this.#updatePoolSize, 0)]. *)
Definition setTimeout_updatePoolSize : JS unit :=
  fun w =>
    (Normal tt,
     mkWorld (pool w)
             (mkHost (collected (host w)) (registry (host w))
                     (S (timers (host w))) (factoryCalls (host w)))).

(** [this.#create()]: the call is counted and completes the way the
    callback does. *)
Definition call_create (outcome : completion Obj) : JS Obj :=
  fun w =>
    (outcome,
     mkWorld (pool w)
             (mkHost (collected (host w)) (registry (host w))
                     (timers (host w)) (S (factoryCalls (host w))))).

(** [this.#reset(obj)]: completes the way the callback does. *)
Definition call_reset (outcome : completion unit) (obj : Obj) : JS unit :=
  fun w => (outcome, w).

(** **** Statistics and queries *)

Definition get_numActiveObjects : JS Z :=
  read (fun p => JsSet.size (activeObjects p)).

Definition get_curMaxStrongPoolSize : JS Z := read maxStrongPoolSize.

Definition get_numStrongPooledRefs : JS Z := strongPool_length.

Definition get_numWeakPooledRefs : JS Z := weakPool_size.

Definition get_numGC : JS Z := read numGC.

(** [get numActiveGC() { return this.numActiveGC; }]: the body reads the
    accessor itself, not the private field, so every call makes another
    call. [stack] is the number of frames the engine still has room for;
    when there is none it throws [RangeError]. *)
Fixpoint get_numActiveGC (stack : nat) : JS Z :=
  match stack with
  | O => throw RangeError
  | S room => get_numActiveGC room
  end.

Definition isActive (obj : Obj) : JS bool :=
  read (fun p => JsSet.has WeakRef_eqb (activeObjects p) (getWeakRef obj)).

Definition isStrongPooled (obj : Obj) : JS bool :=
  read (fun p => JsArray.includes (strongPool p) obj).

Definition isWeakPooled (obj : Obj) : JS bool :=
  read (fun p => JsSet.has WeakRef_eqb (weakPool p) (getWeakRef obj)).

(** **** [acquire] *)

(** The loop of [acquire] over the weak pool. [it] is what the iterator
    has still to visit; the body deletes the visited entry only, so these
    are the entries after it in insertion order. *)
Fixpoint acquire_backfill (it : list WeakRef) : JS unit :=
  match it with
  | [] => ret tt
  | weakObj :: rest =>
      weakPool_delete weakObj ;;
      strongObj <- deref weakObj ;;
      match strongObj with
      | Some strongObj => strongPool_push strongObj ;; ret tt
      | None => acquire_backfill rest
      end
  end.

Definition acquire (created : completion Obj) : JS Obj :=
  obj <- strongPool_pop ;;
  match obj with
  | Some obj =>
      it <- read weakPool ;;
      acquire_backfill it ;;
      activeObjects_add (getWeakRef obj) ;;
      ret obj
  | None =>
      obj <- call_create created ;;
      let weakObj := getWeakRef obj in
      objFinalizer_register obj weakObj ;;
      activeObjects_add weakObj ;;
      ret obj
  end.

(** **** [release] *)

(** The statements of [release] before the [reset] callback. *)
Definition release_untrack (obj : Obj) : JS unit :=
  let weakObj := getWeakRef obj in
  wasActive <- activeObjects_delete weakObj ;;
  if negb wasActive then objFinalizer_register obj weakObj else ret tt.

(** The statements of [release] after the [reset] callback. *)
Definition release_store (obj : Obj) : JS unit :=
  let weakObj := getWeakRef obj in
  len <- strongPool_length ;;
  max <- read maxStrongPoolSize ;;
  (if len <? max
   then strongPool_push obj ;; ret tt
   else weakPool_add weakObj) ;;
  scheduled <- read poolSizeUpdateScheduled ;;
  if scheduled then ret tt
  else
    write (with_poolSizeUpdateScheduled true) ;;
    setTimeout_updatePoolSize.

Definition release (resetting : completion unit) (obj : Obj) : JS unit :=
  release_untrack obj ;;
  call_reset resetting obj ;;
  release_store obj.

(** **** [#updatePoolSize] *)

(** The [do ... while] loop that moves objects from the strong pool to the
    weak pool. Each round pops once, so [S (length strongPool)] rounds are
    more than the loop can make: popping an empty array yields
    [undefined], of which no [WeakRef] can be made ([TypeError]). *)
Fixpoint updatePoolSize_shrink (rounds : nat) : JS unit :=
  match rounds with
  | O => ret tt
  | S rounds' =>
      obj <- strongPool_pop ;;
      match obj with
      | None => throw TypeError
      | Some obj =>
          weakPool_add (getWeakRef obj) ;;
          max <- read maxStrongPoolSize ;;
          len <- strongPool_length ;;
          if max <? len then updatePoolSize_shrink rounds' else ret tt
      end
  end.

(** The [for ... of] loop that moves live objects from the weak pool to
    the strong pool, with its [break]. *)
Fixpoint updatePoolSize_grow (it : list WeakRef) : JS unit :=
  match it with
  | [] => ret tt
  | weakObj :: rest =>
      weakPool_delete weakObj ;;
      obj <- deref weakObj ;;
      match obj with
      | Some obj =>
          len <- strongPool_push obj ;;
          max <- read maxStrongPoolSize ;;
          if len =? max then ret tt else updatePoolSize_grow rest
      | None => updatePoolSize_grow rest
      end
  end.

Section Scaling.

Variable poolScalingAlgorithm : PoolScalingSignature.

Definition updatePoolSize : JS unit :=
  numActive <- read (fun p => JsSet.size (activeObjects p)) ;;
  curMax <- read maxStrongPoolSize ;;
  numStrong <- strongPool_length ;;
  numWeak <- weakPool_size ;;
  gc <- read numGC ;;
  write (with_maxStrongPoolSize
           (poolScalingAlgorithm numActive curMax numStrong numWeak gc)) ;;
  max <- read maxStrongPoolSize ;;
  len <- strongPool_length ;;
  (if max <? len then
     a <- read strongPool ;;
     updatePoolSize_shrink (S (List.length a))
   else
     size <- weakPool_size ;;
     if (len <? max) && (0 <? size) then
       it <- read weakPool ;;
       updatePoolSize_grow it
     else ret tt) ;;
  write (with_numGC 0) ;;
  write (with_poolSizeUpdateScheduled false).

(** The scheduler runs one pending timer task. *)
Definition run_timer : JS unit :=
  fun w =>
    updatePoolSize
      (mkWorld (pool w)
               (mkHost (collected (host w)) (registry (host w))
                       (Nat.pred (timers (host w)))
                       (factoryCalls (host w)))).

(** [new WeakPool(create, reset, poolScalingAlgorithm)], in a host where
    nothing has happened yet. *)
Definition constructor : World :=
  mkWorld (mkPool [] [] [] false 0 0 (poolScalingAlgorithm 0 0 0 0 0))
          (mkHost [] [] O O).

End Scaling.

(** **** The finalization callback *)

Definition objFinalizer (weakObj : WeakRef) : JS unit :=
  inWeak <- weakPool_delete weakObj ;;
  if inWeak then
    gc <- read numGC ;;
    if gc =? MAX_SAFE_INTEGER then ret tt
    else write (with_numGC (gc + 1))
  else
    inActive <- activeObjects_delete weakObj ;;
    if inActive then
      gc <- read numActiveGC ;;
      if gc =? MAX_SAFE_INTEGER then ret tt
      else write (with_numActiveGC (gc + 1))
    else ret tt.

(** The memory manager reclaims an object. *)
Definition reclaim (obj : Obj) : JS unit :=
  fun w =>
    (Normal tt,
     mkWorld (pool w)
             (mkHost (obj :: collected (host w)) (registry (host w))
                     (timers (host w)) (factoryCalls (host w)))).

(** *** The pool in its environment

    What can happen to a pool between two moments at rest: a caller
    acquires or releases, the scheduler runs the pending timer task, the
    memory manager reclaims an object, or the finalization callback is
    delivered. *)
Inductive Event : Type :=
| EvAcquire (created : completion Obj)
| EvRelease (resetting : completion unit) (obj : Obj)
| EvTimer
| EvReclaim (obj : Obj)
| EvFinalize (weakObj : WeakRef).

Definition exec (algo : PoolScalingSignature) (e : Event) (w : World) : World :=
  match e with
  | EvAcquire created => snd (acquire created w)
  | EvRelease resetting obj => snd (release resetting obj w)
  | EvTimer => snd (run_timer algo w)
  | EvReclaim obj => snd (reclaim obj w)
  | EvFinalize weakObj => snd (objFinalizer weakObj w)
  end.

(** An object the pool has in none of its three collections. *)
Definition unknown (obj : Obj) (p : Pool) : bool :=
  negb (JsSet.has WeakRef_eqb (activeObjects p) (getWeakRef obj))
  && negb (JsArray.includes (strongPool p) obj)
  && negb (JsSet.has WeakRef_eqb (weakPool p) (getWeakRef obj)).

(** When an event can happen.
    - The factory makes new objects: what it returns is not in the pool.
    - Caller discipline: only an object that is checked out, and that the
      caller therefore still holds, is released.
    - The timer task runs only if one is pending.
    - The strong pool keeps its objects alive.
    - The callback is delivered for reclaimed objects only. *)
Definition enabled (e : Event) (w : World) : bool :=
  match e with
  | EvAcquire (Normal obj) =>
      match strongPool (pool w) with
      | [] => unknown obj (pool w)
      | _ :: _ => true
      end
  | EvAcquire (Throw _) => true
  | EvRelease _ obj =>
      JsSet.has WeakRef_eqb (activeObjects (pool w)) (getWeakRef obj)
      && negb (JsArray.includes (collected (host w)) obj)
  | EvTimer => (0 <? timers (host w))%nat
  | EvReclaim obj => negb (JsArray.includes (strongPool (pool w)) obj)
  | EvFinalize weakObj => JsArray.includes (collected (host w)) (target weakObj)
  end.

Inductive reachable (algo : PoolScalingSignature) : World -> Prop :=
| reachable_constructor : reachable algo (constructor algo)
| reachable_exec (w : World) (e : Event) :
    reachable algo w -> enabled e w = true -> reachable algo (exec algo e w).

Definition run (algo : PoolScalingSignature) (es : list Event) (w : World) : World :=
  fold_left (fun w e => exec algo e w) es w.

(** Whether each event of [es] can happen when its turn comes. *)
Fixpoint runnable (algo : PoolScalingSignature) (es : list Event) (w : World) : bool :=
  match es with
  | [] => true
  | e :: es' => enabled e w && runnable algo es' (exec algo e w)
  end.

(** [objs.forEach((o) => pool.release(o))] with a [reset] that returns. *)
Definition releaseAll (objs : list Obj) (w : World) : World :=
  fold_left (fun w obj => snd (release (Normal tt) obj w)) objs w.

(** A scaling algorithm that always answers [n]. *)
Definition fixedCapacity (n : Z) : PoolScalingSignature :=
  fun _ _ _ _ _ => n.

(** [defaultPoolScalingAlgo] as the pool calls it, on integer statistics. *)
Definition defaultScaling : PoolScalingSignature :=
  fun numActive curMax numStrong numWeak gc =>
    match JsNumber.to_Z
            (ScalingAlgo.defaultPoolScalingAlgo
               (JsNumber.of_Z numActive) (JsNumber.of_Z curMax)
               (JsNumber.of_Z numStrong) (JsNumber.of_Z numWeak)
               (JsNumber.of_Z gc))
    with
    | Some n => n
    | None => 0
    end.

(** *** Two scenarios *)

(** Six objects are acquired and released in order, with capacity 5: five
    are in the strong pool, the sixth is in the weak pool, and a rescale
    is pending. *)
Definition overflow_events : list Event :=
  [EvAcquire (Normal 0%nat); EvAcquire (Normal 1%nat); EvAcquire (Normal 2%nat);
   EvAcquire (Normal 3%nat); EvAcquire (Normal 4%nat); EvAcquire (Normal 5%nat);
   EvRelease (Normal tt) 0%nat; EvRelease (Normal tt) 1%nat;
   EvRelease (Normal tt) 2%nat; EvRelease (Normal tt) 3%nat;
   EvRelease (Normal tt) 4%nat; EvRelease (Normal tt) 5%nat].

Definition overflow_world : World :=
  run (fixedCapacity 5) overflow_events (constructor (fixedCapacity 5)).

(** With capacity 0, one object is acquired and released: the strong pool
    is empty and the weak pool refers to the object, which the caller
    still holds. *)
Definition stranded_events : list Event :=
  [EvAcquire (Normal 0%nat); EvRelease (Normal tt) 0%nat].

Definition stranded_world : World :=
  run (fixedCapacity 0) stranded_events (constructor (fixedCapacity 0)).

(** *** Properties of states *)

(** Whether the target of a reference is still there. *)
Definition alive (h : Host) (r : WeakRef) : bool :=
  negb (JsArray.includes (collected h) (target r)).

(** [w'] differs from [w] in the strong pool and the weak pool at most. *)
Definition same_outside_tiers (w w' : World) : Prop :=
  host w' = host w
  /\ activeObjects (pool w') = activeObjects (pool w)
  /\ poolSizeUpdateScheduled (pool w') = poolSizeUpdateScheduled (pool w)
  /\ numGC (pool w') = numGC (pool w)
  /\ numActiveGC (pool w') = numActiveGC (pool w)
  /\ maxStrongPoolSize (pool w') = maxStrongPoolSize (pool w).

(** How many times the pool holds an object: in the strong pool, or by
    its reference in the weak pool or in the active set. *)
Definition occurrences (p : Pool) (obj : Obj) : nat :=
  count_occ Nat.eq_dec (strongPool p) obj
  + count_occ WeakRef_eq_dec (weakPool p) (getWeakRef obj)
  + count_occ WeakRef_eq_dec (activeObjects p) (getWeakRef obj).

(** No object is in two of the active set, the strong pool and the weak
    pool, and none is twice in one of them. *)
Definition tiers_disjoint (p : Pool) : Prop :=
  forall obj, (occurrences p obj <= 1)%nat.

(** The capacity is at least 1 and the weak pool is used only while the
    strong pool holds something. *)
Definition backed (p : Pool) : Prop :=
  1 <= maxStrongPoolSize p /\ (weakPool p = [] \/ strongPool p <> []).

(** The debounce flag is set exactly while a timer task is pending. *)
Definition debounced (w : World) : Prop :=
  timers (host w) = if poolSizeUpdateScheduled (pool w) then 1%nat else 0%nat.

End WeakPool.

(* ===================================================================== *)
(** ** The helpers of the test suite ([tests/utils.ts]) *)
(* ===================================================================== *)

Module WeakPoolUtils.

Import WeakPool.
Local Open Scope js_scope.

(** The loop of [acquireN]: [i] counts the calls made, [num] those still
    to make, and [created i] is how the factory completes if the [i]-th
    call of [acquire] reaches it. *)
Fixpoint acquireN_loop (num i : nat) (created : nat -> completion Obj)
    (objs : list Obj) : JS (list Obj) :=
  match num with
  | O => ret objs
  | S num' =>
      obj <- acquire (created i) ;;
      acquireN_loop num' (S i) created (objs ++ [obj])
  end.

Definition acquireN (num : nat) (created : nat -> completion Obj) : JS (list Obj) :=
  acquireN_loop num O created [].

End WeakPoolUtils.

(* ===================================================================== *)
(** ** What a pool holds *)
(* ===================================================================== *)

Module WeakPoolStates.

Import WeakPool.

(** The pool holds an object: in the strong pool, or by its reference in
    the weak pool or in the active set. *)
Definition holds (p : Pool) (obj : Obj) : Prop :=
  In obj (strongPool p)
  \/ In (getWeakRef obj) (weakPool p)
  \/ In (getWeakRef obj) (activeObjects p).

(** The object has been registered with the [FinalizationRegistry], with
    its reference as held value. *)
Definition registered (h : Host) (obj : Obj) : Prop :=
  In (obj, getWeakRef obj) (registry h).

(** What an event brings into the pool from outside: the object the
    factory returns, or the object passed to [release]. *)
Definition brings (e : Event) (w : World) (obj : Obj) : Prop :=
  match e with
  | EvAcquire (Normal o) => strongPool (pool w) = [] /\ obj = o
  | EvRelease _ o => obj = o
  | _ => False
  end.

End WeakPoolStates.

(* ===================================================================== *)
(** ** The earlier pool ([WeakPool.ts], first version) *)
(* ===================================================================== *)

(** The first class of the file counts the checked-out objects instead of
    keeping them in a set, registers a reference with the
    [FinalizationRegistry] when [release] puts it in the weak pool, and
    remembers in a static [WeakSet] which references it has registered. *)
Module WeakPoolV1.

Import WeakPool.
Local Open Scope Z_scope.

Record Pool : Type := mkPool {
  weakPool : list WeakRef;
  strongPool : list Obj;
  numActiveObjects : Z;
  poolSizeUpdateScheduled : bool;
  numGC : Z;
  maxStrongPoolSize : Z
}.

(** [registeredWeakRefs] is the static [#registeredWeakRefs]. *)
Record World : Type := mkWorld {
  pool : Pool;
  host : Host;
  registeredWeakRefs : list WeakRef
}.

Definition with_weakPool (v : list WeakRef) (p : Pool) : Pool :=
  mkPool v (strongPool p) (numActiveObjects p) (poolSizeUpdateScheduled p)
         (numGC p) (maxStrongPoolSize p).
Definition with_strongPool (v : list Obj) (p : Pool) : Pool :=
  mkPool (weakPool p) v (numActiveObjects p) (poolSizeUpdateScheduled p)
         (numGC p) (maxStrongPoolSize p).
Definition with_numActiveObjects (v : Z) (p : Pool) : Pool :=
  mkPool (weakPool p) (strongPool p) v (poolSizeUpdateScheduled p)
         (numGC p) (maxStrongPoolSize p).
Definition with_poolSizeUpdateScheduled (v : bool) (p : Pool) : Pool :=
  mkPool (weakPool p) (strongPool p) (numActiveObjects p) v
         (numGC p) (maxStrongPoolSize p).
Definition with_numGC (v : Z) (p : Pool) : Pool :=
  mkPool (weakPool p) (strongPool p) (numActiveObjects p)
         (poolSizeUpdateScheduled p) v (maxStrongPoolSize p).
Definition with_maxStrongPoolSize (v : Z) (p : Pool) : Pool :=
  mkPool (weakPool p) (strongPool p) (numActiveObjects p)
         (poolSizeUpdateScheduled p) (numGC p) v.

Definition with_host (h : Host) (w : World) : World :=
  mkWorld (pool w) h (registeredWeakRefs w).

Definition JS (A : Type) : Type := World -> completion A * World.

Definition ret {A} (a : A) : JS A := fun w => (Normal a, w).

Definition throw {A} (e : Exn) : JS A := fun w => (Throw e, w).

Definition bind {A B} (m : JS A) (k : A -> JS B) : JS B :=
  fun w =>
    match m w with
    | (Normal a, w') => k a w'
    | (Throw e, w') => (Throw e, w')
    end.

Declare Scope js1_scope.
Delimit Scope js1_scope with js1.
Notation "x <- m ;; k" := (bind m (fun x => k))
  (at level 61, m at next level, right associativity) : js1_scope.
Notation "m ;; k" := (bind m (fun _ => k))
  (at level 61, right associativity) : js1_scope.
Local Open Scope js1_scope.

Definition read {A} (f : Pool -> A) : JS A :=
  fun w => (Normal (f (pool w)), w).

Definition write (f : Pool -> Pool) : JS unit :=
  fun w => (Normal tt, mkWorld (f (pool w)) (host w) (registeredWeakRefs w)).

Definition strongPool_length : JS Z :=
  read (fun p => JsArray.length (strongPool p)).

Definition strongPool_pop : JS (option Obj) :=
  a <- read strongPool ;;
  write (with_strongPool (snd (JsArray.pop a))) ;;
  ret (fst (JsArray.pop a)).

Definition strongPool_push (obj : Obj) : JS Z :=
  a <- read strongPool ;;
  write (with_strongPool (fst (JsArray.push a obj))) ;;
  ret (snd (JsArray.push a obj)).

Definition weakPool_size : JS Z :=
  read (fun p => JsSet.size (weakPool p)).

Definition weakPool_add (r : WeakRef) : JS unit :=
  write (fun p => with_weakPool (JsSet.add WeakRef_eqb (weakPool p) r) p).

Definition weakPool_delete (r : WeakRef) : JS bool :=
  s <- read weakPool ;;
  write (with_weakPool (JsSet.delete WeakRef_eqb s r)) ;;
  ret (JsSet.has WeakRef_eqb s r).

Definition deref (r : WeakRef) : JS (option Obj) :=
  fun w =>
    (Normal (if JsArray.includes (collected (host w)) (target r)
             then None else Some (target r)), w).

(** [WeakPool.#registeredWeakRefs.has(weakObj)] and [.add(weakObj)]. *)
Definition registeredWeakRefs_has (r : WeakRef) : JS bool :=
  fun w => (Normal (JsSet.has WeakRef_eqb (registeredWeakRefs w) r), w).

Definition registeredWeakRefs_add (r : WeakRef) : JS unit :=
  fun w =>
    (Normal tt,
     mkWorld (pool w) (host w) (JsSet.add WeakRef_eqb (registeredWeakRefs w) r)).

Definition objFinalizer_register (obj : Obj) (r : WeakRef) : JS unit :=
  fun w =>
    (Normal tt,
     with_host (mkHost (collected (host w)) ((obj, r) :: registry (host w))
                       (timers (host w)) (factoryCalls (host w))) w).

Definition setTimeout_updatePoolSize : JS unit :=
  fun w =>
    (Normal tt,
     with_host (mkHost (collected (host w)) (registry (host w))
                       (S (timers (host w))) (factoryCalls (host w))) w).

Definition call_create (outcome : completion Obj) : JS Obj :=
  fun w =>
    (outcome,
     with_host (mkHost (collected (host w)) (registry (host w))
                       (timers (host w)) (S (factoryCalls (host w)))) w).

Definition call_reset (outcome : completion unit) (obj : Obj) : JS unit :=
  fun w => (outcome, w).

Definition get_numActiveObjects : JS Z := read numActiveObjects.

Fixpoint acquire_backfill (it : list WeakRef) : JS unit :=
  match it with
  | [] => ret tt
  | weakObj :: rest =>
      weakPool_delete weakObj ;;
      strongObj <- deref weakObj ;;
      match strongObj with
      | Some strongObj => strongPool_push strongObj ;; ret tt
      | None => acquire_backfill rest
      end
  end.

(** [this.#numActiveObjects++] comes first, before the pool or the factory
    is asked for an object. *)
Definition acquire (created : completion Obj) : JS Obj :=
  write (fun p => with_numActiveObjects (numActiveObjects p + 1) p) ;;
  obj <- strongPool_pop ;;
  match obj with
  | Some obj =>
      it <- read weakPool ;;
      acquire_backfill it ;;
      ret obj
  | None => call_create created
  end.

Definition release (resetting : completion unit) (obj : Obj) : JS unit :=
  write (fun p => with_numActiveObjects (Z.max (numActiveObjects p - 1) 0) p) ;;
  call_reset resetting obj ;;
  len <- strongPool_length ;;
  max <- read maxStrongPoolSize ;;
  (if len <? max
   then strongPool_push obj ;; ret tt
   else
     let weakObj := getWeakRef obj in
     weakPool_add weakObj ;;
     known <- registeredWeakRefs_has weakObj ;;
     if negb known then
       objFinalizer_register obj weakObj ;;
       registeredWeakRefs_add weakObj
     else ret tt) ;;
  scheduled <- read poolSizeUpdateScheduled ;;
  if scheduled then ret tt
  else
    write (with_poolSizeUpdateScheduled true) ;;
    setTimeout_updatePoolSize.

Fixpoint updatePoolSize_shrink (rounds : nat) : JS unit :=
  match rounds with
  | O => ret tt
  | S rounds' =>
      obj <- strongPool_pop ;;
      match obj with
      | None => throw TypeError
      | Some obj =>
          weakPool_add (getWeakRef obj) ;;
          max <- read maxStrongPoolSize ;;
          len <- strongPool_length ;;
          if max <? len then updatePoolSize_shrink rounds' else ret tt
      end
  end.

Fixpoint updatePoolSize_grow (it : list WeakRef) : JS unit :=
  match it with
  | [] => ret tt
  | weakObj :: rest =>
      weakPool_delete weakObj ;;
      obj <- deref weakObj ;;
      match obj with
      | Some obj =>
          len <- strongPool_push obj ;;
          max <- read maxStrongPoolSize ;;
          if len =? max then ret tt else updatePoolSize_grow rest
      | None => updatePoolSize_grow rest
      end
  end.

Definition updatePoolSize (poolScalingAlgorithm : PoolScalingSignature) : JS unit :=
  numActive <- get_numActiveObjects ;;
  curMax <- read maxStrongPoolSize ;;
  numStrong <- strongPool_length ;;
  numWeak <- weakPool_size ;;
  gc <- read numGC ;;
  write (with_maxStrongPoolSize
           (poolScalingAlgorithm numActive curMax numStrong numWeak gc)) ;;
  max <- read maxStrongPoolSize ;;
  len <- strongPool_length ;;
  (if max <? len then
     a <- read strongPool ;;
     updatePoolSize_shrink (S (List.length a))
   else
     size <- weakPool_size ;;
     if (len <? max) && (0 <? size) then
       it <- read weakPool ;;
       updatePoolSize_grow it
     else ret tt) ;;
  write (with_numGC 0) ;;
  write (with_poolSizeUpdateScheduled false).

(** The callback of the [FinalizationRegistry]: the count does not depend
    on whether the reference was still in the weak pool. *)
Definition objFinalizer (weakObj : WeakRef) : JS unit :=
  weakPool_delete weakObj ;;
  gc <- read numGC ;;
  if gc =? MAX_SAFE_INTEGER then ret tt
  else write (with_numGC (gc + 1)).

Definition constructor (poolScalingAlgorithm : PoolScalingSignature) : World :=
  mkWorld (mkPool [] [] 0 false 0 (poolScalingAlgorithm 0 0 0 0 0))
          (mkHost [] [] O O) [].

Definition exec (algo : PoolScalingSignature) (e : Event) (w : World) : World :=
  match e with
  | EvAcquire created => snd (acquire created w)
  | EvRelease resetting obj => snd (release resetting obj w)
  | EvTimer =>
      snd (updatePoolSize algo
             (with_host (mkHost (collected (host w)) (registry (host w))
                                (Nat.pred (timers (host w)))
                                (factoryCalls (host w))) w))
  | EvReclaim obj =>
      with_host (mkHost (obj :: collected (host w)) (registry (host w))
                        (timers (host w)) (factoryCalls (host w))) w
  | EvFinalize weakObj => snd (objFinalizer weakObj w)
  end.

Definition run (algo : PoolScalingSignature) (es : list Event) (w : World) : World :=
  fold_left (fun w e => exec algo e w) es w.

(** [w'] has the host, the static set and the counter of checked-out
    objects of [w]. *)
Definition same_bookkeeping (w w' : World) : Prop :=
  host w' = host w
  /\ registeredWeakRefs w' = registeredWeakRefs w
  /\ numActiveObjects (pool w') = numActiveObjects (pool w).


End WeakPoolV1.

(* ===================================================================== *)
(** * Properties *)
(* ===================================================================== *)

(** ** The default scaling algorithm *)

Module ScalingAlgoFacts.

Import JsNumber ScalingAlgo.
Local Open Scope float_scope.

Lemma zero_active_gives_default (c s w g : float) :
  defaultPoolScalingAlgo 0 c s w g = 5.
Proof. reflexivity. Qed.

Lemma healthy_band_keeps_capacity :
  Forall (fun p : Z =>
            forall s w g, defaultPoolScalingAlgo 100 (of_Z p) s w g = of_Z p)
         (map Z.of_nat (seq 10 41)).
Proof. cbn [seq map]. repeat (constructor; [intros; vm_compute; reflexivity|]). constructor. Qed.

Lemma in_band_range (p : Z) :
  (10 <= p <= 50)%Z -> In p (map Z.of_nat (seq 10 41)).
Proof.
  intros Hp. apply in_map_iff. exists (Z.to_nat p). split; [lia|].
  apply in_seq. lia.
Qed.

Lemma agree_below_sound (bound : nat) (a c : Z) :
  agree_below bound = true ->
  (0 <= a < Z.of_nat bound)%Z -> (0 <= c < Z.of_nat bound)%Z ->
  to_Z (defaultOnIntegers a c) = Some (spec_defaultPoolScalingAlgo a c).
Proof.
  unfold agree_below. intros Hall Ha Hc.
  rewrite forallb_forall in Hall.
  specialize (Hall (Z.to_nat a)).
  rewrite forallb_forall in Hall.
  assert (Hin : forall n, (0 <= n < Z.of_nat bound)%Z -> In (Z.to_nat n) (seq 0 bound))
    by (intros n Hn; apply in_seq; lia).
  specialize (Hall (Hin a Ha) (Z.to_nat c) (Hin c Hc)).
  rewrite !Z2Nat.id in Hall by lia.
  destruct (to_Z (defaultOnIntegers a c)) as [n|]; [|discriminate].
  apply Z.eqb_eq in Hall. now subst.
Qed.

Lemma agree_below_128 : agree_below 128 = true.
Proof. vm_compute. reflexivity. Qed.

(** C3. The default scaling algorithm returns 5 whenever the active count
    is 0, whatever the other arguments; on the literal inputs (1,5),
    (100,9) and (100,51) it returns 5, 20 and 20, and on (100,p) with
    10 <= p <= 50 it returns p, whatever the last three arguments. In
    general it returns the default when the active count is 0, otherwise
    max(ceil(numActive * 0.2), 5) when the quotient curMax / numActive is
    below 0.1 or above 0.5, and max(curMax, 5) otherwise. On integer
    statistics below 128 this is the exact-arithmetic reading of the
    policy. *)
Theorem default_scaling_algorithm_cases :
  (forall c s w g, defaultPoolScalingAlgo 0 c s w g = 5)
  /\ (forall s w g, defaultPoolScalingAlgo 1 5 s w g = 5)
  /\ (forall s w g, defaultPoolScalingAlgo 100 9 s w g = 20)
  /\ (forall s w g, defaultPoolScalingAlgo 100 51 s w g = 20)
  /\ (forall p : Z, (10 <= p <= 50)%Z ->
        forall s w g, defaultPoolScalingAlgo 100 (of_Z p) s w g = of_Z p)
  /\ (forall a c s w g,
        (strict_eq a 0 = true ->
           defaultPoolScalingAlgo a c s w g = DEFAULT_MAX_STRONG_POOL_SIZE)
        /\ (strict_eq a 0 = false ->
            (c / a <? MIN_POOL_TO_ACTIVE_RATIO) || (MAX_POOL_TO_ACTIVE_RATIO <? c / a) = true ->
            defaultPoolScalingAlgo a c s w g
            = Math_max (Math_ceil (a * POOL_SCALING_FACTOR)) DEFAULT_MAX_STRONG_POOL_SIZE)
        /\ (strict_eq a 0 = false ->
            (c / a <? MIN_POOL_TO_ACTIVE_RATIO) || (MAX_POOL_TO_ACTIVE_RATIO <? c / a) = false ->
            defaultPoolScalingAlgo a c s w g
            = Math_max c DEFAULT_MAX_STRONG_POOL_SIZE))
  /\ (forall a c : Z, (0 <= a < 128)%Z -> (0 <= c < 128)%Z ->
        to_Z (defaultOnIntegers a c) = Some (spec_defaultPoolScalingAlgo a c)).
Proof.
  split; [exact zero_active_gives_default|].
  split; [intros; vm_compute; reflexivity|].
  split; [intros; vm_compute; reflexivity|].
  split; [intros; vm_compute; reflexivity|].
  split.
  { intros p Hp.
    exact (proj1 (Forall_forall _ _) healthy_band_keeps_capacity p (in_band_range p Hp)). }
  split.
  { intros a c s w g. unfold defaultPoolScalingAlgo.
    repeat split; intros H; rewrite H; try reflexivity;
      intros H'; rewrite H'; reflexivity. }
  intros a c Ha Hc. apply (agree_below_sound 128); [exact agree_below_128|lia|lia].
Qed.

Lemma default_scaling_algorithm_cases_witness :
  defaultPoolScalingAlgo 100 (of_Z 25) 0 0 0 = of_Z 25
  /\ defaultPoolScalingAlgo 100 9 0 0 0
     = Math_max (Math_ceil (100 * POOL_SCALING_FACTOR)) DEFAULT_MAX_STRONG_POOL_SIZE
  /\ to_Z (defaultOnIntegers 37 3) = Some (spec_defaultPoolScalingAlgo 37 3).
Proof.
  destruct default_scaling_algorithm_cases as (_ & _ & _ & _ & Hband & Hgen & Hint).
  split; [apply Hband; lia|].
  split.
  - apply (Hgen 100 9 0 0 0); reflexivity.
  - apply Hint; lia.
Defined.

End ScalingAlgoFacts.

(** ** The pool *)

Module WeakPoolFacts.

Import WeakPool.
Local Open Scope Z_scope.

(** *** Sets and arrays *)

Lemma WeakRef_eqb_eq (a b : WeakRef) : WeakRef_eqb a b = true <-> a = b.
Proof.
  destruct a as [x], b as [y]. unfold WeakRef_eqb. cbn.
  rewrite Nat.eqb_eq. split; congruence.
Qed.

Lemma WeakRef_eqb_refl (a : WeakRef) : WeakRef_eqb a a = true.
Proof. now apply WeakRef_eqb_eq. Qed.

Lemma WeakRef_eqb_neq (a b : WeakRef) : WeakRef_eqb a b = false <-> a <> b.
Proof.
  rewrite <- WeakRef_eqb_eq. destruct (WeakRef_eqb a b); split; congruence.
Qed.

Lemma getWeakRef_inj (a b : Obj) : getWeakRef a = getWeakRef b -> a = b.
Proof. unfold getWeakRef. congruence. Qed.

Lemma getWeakRef_target (r : WeakRef) : getWeakRef (target r) = r.
Proof. now destruct r. Qed.

Lemma has_In (s : list WeakRef) (x : WeakRef) :
  JsSet.has WeakRef_eqb s x = true <-> In x s.
Proof.
  unfold JsSet.has. rewrite existsb_exists. split.
  - intros (y & Hy & Heq). apply WeakRef_eqb_eq in Heq. now subst.
  - intros Hin. exists x. split; [assumption | apply WeakRef_eqb_refl].
Qed.

Lemma has_not_In (s : list WeakRef) (x : WeakRef) :
  JsSet.has WeakRef_eqb s x = false <-> ~ In x s.
Proof.
  rewrite <- has_In. destruct (JsSet.has WeakRef_eqb s x); split; congruence.
Qed.

Lemma includes_In (a : list Obj) (x : Obj) :
  JsArray.includes a x = true <-> In x a.
Proof.
  unfold JsArray.includes. rewrite existsb_exists. split.
  - intros (y & Hy & Heq). apply Nat.eqb_eq in Heq. now subst.
  - intros Hin. exists x. split; [assumption | apply Nat.eqb_refl].
Qed.

Lemma includes_not_In (a : list Obj) (x : Obj) :
  JsArray.includes a x = false <-> ~ In x a.
Proof.
  rewrite <- includes_In. destruct (JsArray.includes a x); split; congruence.
Qed.

Lemma In_delete (s : list WeakRef) (x y : WeakRef) :
  In y (JsSet.delete WeakRef_eqb s x) <-> In y s /\ y <> x.
Proof.
  unfold JsSet.delete. rewrite filter_In, negb_true_iff, WeakRef_eqb_neq.
  intuition congruence.
Qed.

Lemma delete_absent (s : list WeakRef) (x : WeakRef) :
  ~ In x s -> JsSet.delete WeakRef_eqb s x = s.
Proof.
  induction s as [|y s IH]; intros Hx; [reflexivity|].
  cbn. destruct (WeakRef_eqb x y) eqn:E.
  - apply WeakRef_eqb_eq in E. subst. exfalso. apply Hx. now left.
  - cbn. f_equal. apply IH. intros H. apply Hx. now right.
Qed.

Lemma delete_head (s : list WeakRef) (x : WeakRef) :
  NoDup (x :: s) -> JsSet.delete WeakRef_eqb (x :: s) x = s.
Proof.
  intros Hnd. inversion Hnd; subst. cbn. rewrite WeakRef_eqb_refl. cbn.
  now apply delete_absent.
Qed.

Lemma In_add (s : list WeakRef) (x y : WeakRef) :
  In y (JsSet.add WeakRef_eqb s x) <-> In y s \/ y = x.
Proof.
  unfold JsSet.add. destruct (JsSet.has WeakRef_eqb s x) eqn:E.
  - apply has_In in E. split; [tauto|]. intros [H| ->]; assumption.
  - rewrite in_app_iff. cbn. intuition congruence.
Qed.

Lemma pop_nil {A} : JsArray.pop (@nil A) = (None, []).
Proof. reflexivity. Qed.

Lemma pop_snoc {A} (a : list A) (x : A) : JsArray.pop (a ++ [x]) = (Some x, a).
Proof. unfold JsArray.pop. rewrite rev_app_distr. cbn. now rewrite rev_involutive. Qed.

Lemma array_cases {A} (a : list A) : a = [] \/ exists a' x, a = a' ++ [x].
Proof.
  destruct a as [|y a]; [now left | right].
  destruct (exists_last (l := y :: a)) as (a' & x & E); [discriminate|].
  now exists a', x.
Qed.

Lemma length_snoc {A} (a : list A) (x : A) :
  JsArray.length (a ++ [x]) = JsArray.length a + 1.
Proof. unfold JsArray.length. rewrite length_app. cbn. lia. Qed.

#[local] Arguments JsSet.has : simpl never.
#[local] Arguments JsSet.add : simpl never.
#[local] Arguments JsSet.delete : simpl never.
#[local] Arguments JsSet.size : simpl never.
#[local] Arguments JsArray.pop : simpl never.
#[local] Arguments JsArray.length : simpl never.
#[local] Arguments JsArray.includes : simpl never.
#[local] Arguments Z.ltb : simpl never.
#[local] Arguments Z.eqb : simpl never.
#[local] Arguments Nat.eq_dec : simpl never.
#[local] Arguments release_untrack : simpl never.
#[local] Arguments release_store : simpl never.
#[local] Arguments release : simpl never.
#[local] Arguments acquire : simpl never.
#[local] Arguments updatePoolSize : simpl never.
#[local] Arguments objFinalizer : simpl never.
#[local] Arguments WeakRef_eq_dec : simpl never.

Ltac js_unfold :=
  unfold release, release_untrack, release_store, acquire, objFinalizer,
    updatePoolSize, run_timer, reclaim,
    strongPool_pop, strongPool_push, strongPool_length,
    weakPool_size, weakPool_add, weakPool_delete,
    activeObjects_add, activeObjects_delete, deref,
    objFinalizer_register, setTimeout_updatePoolSize, call_create, call_reset,
    get_numActiveObjects, get_curMaxStrongPoolSize, get_numStrongPooledRefs,
    get_numWeakPooledRefs, get_numGC, isActive, isStrongPooled, isWeakPooled,
    bind, ret, throw, read, write,
    with_weakPool, with_strongPool, with_activeObjects,
    with_poolSizeUpdateScheduled, with_numGC, with_numActiveGC,
    with_maxStrongPoolSize.

Ltac js_case :=
  match goal with
  | |- context [if ?c then _ else _] => destruct c eqn:?
  end; cbn.

(** *** Counting occurrences *)

Lemma count_delete (s : list WeakRef) (x y : WeakRef) :
  count_occ WeakRef_eq_dec (JsSet.delete WeakRef_eqb s x) y
  = if WeakRef_eq_dec x y then O else count_occ WeakRef_eq_dec s y.
Proof.
  unfold JsSet.delete. induction s as [|z s IH]; cbn.
  - now destruct (WeakRef_eq_dec x y).
  - destruct (WeakRef_eqb x z) eqn:E; cbn.
    + apply WeakRef_eqb_eq in E. subst z. rewrite IH.
      destruct (WeakRef_eq_dec x y); reflexivity.
    + apply WeakRef_eqb_neq in E. rewrite IH.
      destruct (WeakRef_eq_dec x y), (WeakRef_eq_dec z y); congruence.
Qed.

Lemma count_snoc {A} (dec : forall a b : A, {a = b} + {a <> b})
    (s : list A) (x y : A) :
  count_occ dec (s ++ [x]) y
  = (count_occ dec s y + if dec x y then 1 else 0)%nat.
Proof. rewrite count_occ_app. cbn. now destruct (dec x y). Qed.

Lemma count_add (s : list WeakRef) (x y : WeakRef) :
  (count_occ WeakRef_eq_dec (JsSet.add WeakRef_eqb s x) y
   <= count_occ WeakRef_eq_dec s y
      + if WeakRef_eq_dec x y
        then (if JsSet.has WeakRef_eqb s x then 0 else 1) else 0)%nat.
Proof.
  unfold JsSet.add. destruct (JsSet.has WeakRef_eqb s x) eqn:E.
  - lia.
  - rewrite count_snoc. destruct (WeakRef_eq_dec x y); lia.
Qed.

Lemma count_has (s : list WeakRef) (x : WeakRef) :
  JsSet.has WeakRef_eqb s x = true -> (1 <= count_occ WeakRef_eq_dec s x)%nat.
Proof. intros H. apply has_In in H. now apply count_occ_In. Qed.

Lemma count_includes (a : list Obj) (x : Obj) :
  JsArray.includes a x = true -> (1 <= count_occ Nat.eq_dec a x)%nat.
Proof. intros H. apply includes_In in H. now apply count_occ_In. Qed.

Lemma count_absent (s : list WeakRef) (x : WeakRef) :
  JsSet.has WeakRef_eqb s x = false -> count_occ WeakRef_eq_dec s x = O.
Proof. intros H. apply has_not_In in H. now apply count_occ_not_In. Qed.

Lemma NoDup_weakPool (p : Pool) : tiers_disjoint p -> NoDup (weakPool p).
Proof.
  intros H. apply (NoDup_count_occ WeakRef_eq_dec). intros r.
  specialize (H (target r)). unfold occurrences in H.
  rewrite getWeakRef_target in H. lia.
Qed.

(** *** The loops *)

Lemma same_outside_tiers_refl (w : World) : same_outside_tiers w w.
Proof. unfold same_outside_tiers. tauto. Qed.

Lemma same_outside_tiers_trans (a b c : World) :
  same_outside_tiers a b -> same_outside_tiers b c -> same_outside_tiers a c.
Proof.
  unfold same_outside_tiers.
  intros (?&?&?&?&?&?) (?&?&?&?&?&?). repeat split; congruence.
Qed.

Ltac frame_step IH :=
  match goal with
  | |- context [snd (?loop ?it ?w')] =>
      destruct (IH w') as [? ?]; split; [assumption|];
      eapply same_outside_tiers_trans; [|eassumption];
      unfold same_outside_tiers; cbn; tauto
  end.

Lemma acquire_backfill_frame (it : list WeakRef) (w : World) :
  fst (acquire_backfill it w) = Normal tt
  /\ same_outside_tiers w (snd (acquire_backfill it w)).
Proof.
  revert w. induction it as [|r it IH]; intros w.
  - split; [reflexivity | apply same_outside_tiers_refl].
  - cbn [acquire_backfill]. js_unfold. cbn. js_case.
    + frame_step IH.
    + split; [reflexivity|]. unfold same_outside_tiers; cbn; tauto.
Qed.

Lemma updatePoolSize_grow_frame (it : list WeakRef) (w : World) :
  fst (updatePoolSize_grow it w) = Normal tt
  /\ same_outside_tiers w (snd (updatePoolSize_grow it w)).
Proof.
  revert w. induction it as [|r it IH]; intros w.
  - split; [reflexivity | apply same_outside_tiers_refl].
  - cbn [updatePoolSize_grow]. js_unfold. cbn. js_case.
    + frame_step IH.
    + js_case.
      * split; [reflexivity|]. unfold same_outside_tiers; cbn; tauto.
      * frame_step IH.
Qed.

Lemma updatePoolSize_shrink_frame (rounds : nat) (w : World) :
  same_outside_tiers w (snd (updatePoolSize_shrink rounds w)).
Proof.
  revert w. induction rounds as [|rounds IH]; intros w.
  - apply same_outside_tiers_refl.
  - cbn [updatePoolSize_shrink]. js_unfold. cbn.
    destruct (array_cases (strongPool (pool w))) as [E | (a & x & E)]; rewrite E.
    + rewrite pop_nil. cbn. unfold same_outside_tiers; cbn; tauto.
    + rewrite pop_snoc. cbn. js_case.
      * match goal with
        | |- context [snd (updatePoolSize_shrink rounds ?w')] =>
            eapply same_outside_tiers_trans; [|apply (IH w')]
        end.
        unfold same_outside_tiers; cbn; tauto.
      * unfold same_outside_tiers; cbn; tauto.
Qed.

(** A visited reference that is in the weak pool leaves it, and its
    target enters the strong pool at most once: no object is counted more
    often than before. *)
Lemma promote_occurrences (p : Pool) (r : WeakRef) (obj : Obj) :
  In r (weakPool p) ->
  (occurrences
     (mkPool (JsSet.delete WeakRef_eqb (weakPool p) r)
             (strongPool p ++ [target r]) (activeObjects p)
             (poolSizeUpdateScheduled p) (numGC p) (numActiveGC p)
             (maxStrongPoolSize p)) obj
   <= occurrences p obj)%nat.
Proof.
  intros Hin. unfold occurrences. cbn.
  rewrite count_delete, count_snoc.
  apply (count_occ_In WeakRef_eq_dec) in Hin.
  destruct (WeakRef_eq_dec r (getWeakRef obj)) as [E|E].
  - subst r. cbn. destruct (Nat.eq_dec obj obj); lia.
  - destruct (Nat.eq_dec (target r) obj) as [E'|E']; [|lia].
    exfalso. apply E. rewrite <- E'. symmetry. apply getWeakRef_target.
Qed.

Lemma discard_occurrences (p : Pool) (r : WeakRef) (obj : Obj) :
  (occurrences
     (mkPool (JsSet.delete WeakRef_eqb (weakPool p) r)
             (strongPool p) (activeObjects p)
             (poolSizeUpdateScheduled p) (numGC p) (numActiveGC p)
             (maxStrongPoolSize p)) obj
   <= occurrences p obj)%nat.
Proof.
  unfold occurrences. cbn. rewrite count_delete.
  destruct (WeakRef_eq_dec r (getWeakRef obj)); lia.
Qed.

Lemma demote_occurrences (p : Pool) (a : list Obj) (x obj : Obj) :
  strongPool p = a ++ [x] ->
  (occurrences
     (mkPool (JsSet.add WeakRef_eqb (weakPool p) (getWeakRef x))
             a (activeObjects p)
             (poolSizeUpdateScheduled p) (numGC p) (numActiveGC p)
             (maxStrongPoolSize p)) obj
   <= occurrences p obj)%nat.
Proof.
  intros E. unfold occurrences. cbn. rewrite E, count_snoc.
  pose proof (count_add (weakPool p) (getWeakRef x) (getWeakRef obj)) as H.
  destruct (WeakRef_eq_dec (getWeakRef x) (getWeakRef obj)) as [E'|E'].
  - apply getWeakRef_inj in E'. subst x.
    destruct (Nat.eq_dec obj obj); [|congruence].
    destruct (JsSet.has WeakRef_eqb (weakPool p) (getWeakRef obj)); lia.
  - lia.
Qed.

Lemma rest_in_weakPool (s : list WeakRef) (r : WeakRef) (it : list WeakRef) :
  NoDup (r :: it) ->
  (forall x, In x (r :: it) -> In x s) ->
  forall x, In x it -> In x (JsSet.delete WeakRef_eqb s r).
Proof.
  intros Hnd Hin x Hx. apply In_delete. split.
  - apply Hin. now right.
  - inversion Hnd; subst. intros ->. contradiction.
Qed.

Lemma acquire_backfill_occurrences (it : list WeakRef) (w : World) (obj : Obj) :
  NoDup it -> (forall r, In r it -> In r (weakPool (pool w))) ->
  (occurrences (pool (snd (acquire_backfill it w))) obj
   <= occurrences (pool w) obj)%nat.
Proof.
  revert w. induction it as [|r it IH]; intros w Hnd Hin.
  - cbn. lia.
  - cbn [acquire_backfill]. js_unfold. cbn. js_case.
    + match goal with
      | |- context [snd (acquire_backfill it ?w')] =>
          etransitivity; [apply (IH w')|]
      end.
      * now inversion Hnd.
      * cbn. eapply rest_in_weakPool; eassumption.
      * cbn. apply discard_occurrences.
    + apply promote_occurrences. apply Hin. now left.
Qed.

Lemma updatePoolSize_grow_occurrences (it : list WeakRef) (w : World) (obj : Obj) :
  NoDup it -> (forall r, In r it -> In r (weakPool (pool w))) ->
  (occurrences (pool (snd (updatePoolSize_grow it w))) obj
   <= occurrences (pool w) obj)%nat.
Proof.
  revert w. induction it as [|r it IH]; intros w Hnd Hin.
  - cbn. lia.
  - assert (Hnd' : NoDup it) by now inversion Hnd.
    cbn [updatePoolSize_grow]. js_unfold. cbn. js_case.
    + match goal with
      | |- context [snd (updatePoolSize_grow it ?w')] =>
          etransitivity; [apply (IH w')|]
      end.
      * assumption.
      * cbn. eapply rest_in_weakPool; eassumption.
      * cbn. apply discard_occurrences.
    + js_case.
      * apply promote_occurrences. apply Hin. now left.
      * match goal with
        | |- context [snd (updatePoolSize_grow it ?w')] =>
            etransitivity; [apply (IH w')|]
        end.
        -- assumption.
        -- cbn. eapply rest_in_weakPool; eassumption.
        -- cbn. apply promote_occurrences. apply Hin. now left.
Qed.

Lemma updatePoolSize_shrink_occurrences (rounds : nat) (w : World) (obj : Obj) :
  (occurrences (pool (snd (updatePoolSize_shrink rounds w))) obj
   <= occurrences (pool w) obj)%nat.
Proof.
  revert w. induction rounds as [|rounds IH]; intros w.
  - cbn. lia.
  - cbn [updatePoolSize_shrink]. js_unfold. cbn.
    destruct (array_cases (strongPool (pool w))) as [E | (a & x & E)]; rewrite E.
    + rewrite pop_nil. cbn. unfold occurrences. cbn. rewrite E. lia.
    + rewrite pop_snoc. cbn. js_case.
      * match goal with
        | |- context [snd (updatePoolSize_shrink rounds ?w')] =>
            etransitivity; [apply (IH w')|]
        end.
        cbn. now apply demote_occurrences.
      * now apply demote_occurrences.
Qed.

(** *** Single calls *)

Lemma get_numActiveGC_throws (stack : nat) (w : World) :
  get_numActiveGC stack w = (Throw RangeError, w).
Proof. induction stack as [|stack IH]; [reflexivity | exact IH]. Qed.

Lemma acquire_empty (created : completion Obj) (w : World) :
  strongPool (pool w) = [] ->
  factoryCalls (host (snd (acquire created w))) = S (factoryCalls (host w))
  /\ fst (acquire created w) = created
  /\ strongPool (pool (snd (acquire created w))) = []
  /\ weakPool (pool (snd (acquire created w))) = weakPool (pool w).
Proof.
  intros E. js_unfold. cbn. rewrite E, pop_nil. cbn.
  destruct created; cbn; rewrite ?E; repeat split; reflexivity.
Qed.

Lemma acquire_nonempty (created : completion Obj) (w : World) (a : list Obj) (x : Obj) :
  strongPool (pool w) = a ++ [x] ->
  acquire created w
  = (Normal x,
     let w1 := snd (acquire_backfill (weakPool (pool w))
                      (mkWorld (with_strongPool a (pool w)) (host w))) in
     mkWorld (with_activeObjects
                (JsSet.add WeakRef_eqb (activeObjects (pool w1)) (getWeakRef x))
                (pool w1))
             (host w1)).
Proof.
  intros E. js_unfold. cbn. rewrite E, pop_snoc. cbn.
  match goal with
  | |- context [acquire_backfill ?it ?w'] =>
      pose proof (acquire_backfill_frame it w') as [Hn _];
      destruct (acquire_backfill it w') as [c w1]
  end.
  cbn in Hn. subst c. reflexivity.
Qed.

Lemma acquire_frame (created : completion Obj) (w : World) :
  let w' := snd (acquire created w) in
  poolSizeUpdateScheduled (pool w') = poolSizeUpdateScheduled (pool w)
  /\ numGC (pool w') = numGC (pool w)
  /\ numActiveGC (pool w') = numActiveGC (pool w)
  /\ maxStrongPoolSize (pool w') = maxStrongPoolSize (pool w)
  /\ timers (host w') = timers (host w)
  /\ collected (host w') = collected (host w).
Proof.
  destruct (array_cases (strongPool (pool w))) as [E | (a & x & E)].
  - js_unfold. cbn. rewrite E, pop_nil. cbn. destruct created; cbn; tauto.
  - rewrite (acquire_nonempty _ _ _ _ E). cbn.
    match goal with
    | |- context [acquire_backfill ?it ?w'] =>
        pose proof (acquire_backfill_frame it w') as [_ Hf]
    end.
    destruct Hf as (Hh & Ha & Hs & Hg & Hag & Hm). cbn in *.
    rewrite Hh. tauto.
Qed.

Lemma release_throw (e : Exn) (obj : Obj) (w : World) :
  release (Throw e) obj w = (Throw e, snd (release_untrack obj w)).
Proof. js_unfold. cbn. js_case; reflexivity. Qed.

Lemma release_untrack_frame (obj : Obj) (w : World) :
  let w' := snd (release_untrack obj w) in
  fst (release_untrack obj w) = Normal tt
  /\ pool w'
     = with_activeObjects
         (JsSet.delete WeakRef_eqb (activeObjects (pool w)) (getWeakRef obj))
         (pool w)
  /\ timers (host w') = timers (host w)
  /\ collected (host w') = collected (host w)
  /\ factoryCalls (host w') = factoryCalls (host w).
Proof. js_unfold. cbn. js_case; tauto. Qed.

Lemma release_normal (obj : Obj) (w : World) :
  release (Normal tt) obj w
  = (Normal tt, snd (release_store obj (snd (release_untrack obj w)))).
Proof. js_unfold. cbn. repeat js_case; reflexivity. Qed.

Lemma release_store_spec (obj : Obj) (w : World) :
  let p := pool w in
  let w' := snd (release_store obj w) in
  (if JsArray.length (strongPool p) <? maxStrongPoolSize p
   then strongPool (pool w') = strongPool p ++ [obj]
        /\ weakPool (pool w') = weakPool p
   else strongPool (pool w') = strongPool p
        /\ weakPool (pool w') = JsSet.add WeakRef_eqb (weakPool p) (getWeakRef obj))
  /\ activeObjects (pool w') = activeObjects p
  /\ numGC (pool w') = numGC p
  /\ numActiveGC (pool w') = numActiveGC p
  /\ maxStrongPoolSize (pool w') = maxStrongPoolSize p
  /\ poolSizeUpdateScheduled (pool w') = true
  /\ timers (host w')
     = (if poolSizeUpdateScheduled p then timers (host w) else S (timers (host w)))
  /\ collected (host w') = collected (host w)
  /\ factoryCalls (host w') = factoryCalls (host w).
Proof.
  js_unfold. cbn.
  destruct (JsArray.length (strongPool (pool w)) <? maxStrongPoolSize (pool w));
    cbn; destruct (poolSizeUpdateScheduled (pool w)) eqn:E; cbn; rewrite ?E; tauto.
Qed.

(** *** The rescale *)

(** [#updatePoolSize] with its two loops as one case split. *)
Lemma updatePoolSize_unfold (algo : PoolScalingSignature) (w : World) :
  let p := pool w in
  let newMax := algo (JsSet.size (activeObjects p)) (maxStrongPoolSize p)
                     (JsArray.length (strongPool p)) (JsSet.size (weakPool p))
                     (numGC p) in
  let w1 := mkWorld (with_maxStrongPoolSize newMax p) (host w) in
  updatePoolSize algo w
  = match (if newMax <? JsArray.length (strongPool p)
           then updatePoolSize_shrink (S (List.length (strongPool p))) w1
           else if (JsArray.length (strongPool p) <? newMax)
                   && (0 <? JsSet.size (weakPool p))
                then updatePoolSize_grow (weakPool p) w1
                else (Normal tt, w1))
    with
    | (Normal _, w2) =>
        (Normal tt,
         mkWorld (with_poolSizeUpdateScheduled false (with_numGC 0 (pool w2)))
                 (host w2))
    | (Throw e, w2) => (Throw e, w2)
    end.
Proof.
  cbv zeta. unfold updatePoolSize.
  unfold strongPool_length, weakPool_size, bind, ret, read, write. cbn.
  destruct (_ <? JsArray.length (strongPool (pool w))); [reflexivity|].
  destruct ((_ <? _) && (_ <? _)); reflexivity.
Qed.

Lemma updatePoolSize_shrink_closed (spilled kept : list Obj) :
  forall (rounds : nat) (w : World),
    strongPool (pool w) = kept ++ spilled ->
    spilled <> [] ->
    JsArray.length kept = maxStrongPoolSize (pool w) ->
    (List.length spilled <= rounds)%nat ->
    updatePoolSize_shrink rounds w
    = (Normal tt,
       mkWorld
         (with_strongPool kept
            (with_weakPool
               (fold_left (JsSet.add WeakRef_eqb)
                          (map getWeakRef (rev spilled)) (weakPool (pool w)))
               (pool w)))
         (host w)).
Proof.
  induction spilled as [|x sp IH] using rev_ind; intros rounds w E Hne Hmax Hr.
  - congruence.
  - rewrite length_app in Hr. cbn in Hr.
    destruct rounds as [|rounds]; [lia|].
    cbn [updatePoolSize_shrink]. js_unfold. cbn.
    rewrite E, app_assoc, pop_snoc. cbn.
    rewrite rev_app_distr. cbn.
    destruct sp as [|y sp'].
    + rewrite app_nil_r, <- Hmax, Z.ltb_irrefl. reflexivity.
    + assert (Hlt : (maxStrongPoolSize (pool w) <? JsArray.length (kept ++ y :: sp')) = true).
      { apply Z.ltb_lt. rewrite <- Hmax. unfold JsArray.length.
        rewrite length_app. cbn. lia. }
      rewrite Hlt.
      match goal with
      | |- updatePoolSize_shrink rounds ?w' = _ => rewrite (IH rounds w')
      end; try reflexivity; cbn; try assumption; try discriminate.
      cbn in Hr. lia.
Qed.

Lemma updatePoolSize_grow_closed (it : list WeakRef) :
  forall w : World,
    NoDup it ->
    weakPool (pool w) = it ->
    JsArray.length (strongPool (pool w)) < maxStrongPoolSize (pool w) ->
    exists visited rest,
      it = visited ++ rest
      /\ updatePoolSize_grow it w
         = (Normal tt,
            mkWorld
              (with_strongPool
                 (strongPool (pool w) ++ map target (filter (alive (host w)) visited))
                 (with_weakPool rest (pool w)))
              (host w))
      /\ (rest = []
          \/ JsArray.length
               (strongPool (pool w) ++ map target (filter (alive (host w)) visited))
             = maxStrongPoolSize (pool w))
      /\ JsArray.length
           (strongPool (pool w) ++ map target (filter (alive (host w)) visited))
         <= maxStrongPoolSize (pool w).
Proof.
  induction it as [|r it IH]; intros w Hnd Hw Hlt.
  - exists [], []. cbn. rewrite app_nil_r.
    destruct w as [p h], p. cbn in *. subst.
    repeat split; [now left | lia].
  - assert (Hnd' : NoDup it) by now inversion Hnd.
    cbn [updatePoolSize_grow]. js_unfold. cbn.
    rewrite Hw, (delete_head _ _ Hnd).
    destruct (JsArray.includes (collected (host w)) (target r)) eqn:Edead; cbn.
    + match goal with
      | |- context [updatePoolSize_grow it ?w'] =>
          destruct (IH w' Hnd' eq_refl Hlt) as (visited & rest & E1 & E2 & E3 & E4)
      end.
      assert (Hal : alive (host w) r = false) by (unfold alive; now rewrite Edead).
      exists (r :: visited), rest. cbn [filter map]. rewrite Hal. cbn in *.
      rewrite E2. subst it. repeat split; assumption || reflexivity.
    + destruct (JsArray.length (strongPool (pool w)) + 1 =? maxStrongPoolSize (pool w)) eqn:Efull.
      * apply Z.eqb_eq in Efull.
        assert (Hal : alive (host w) r = true) by (unfold alive; now rewrite Edead).
        exists [r], it. cbn [filter map app]. rewrite Hal. cbn [map].
        rewrite length_snoc.
        repeat split; [now right | lia].
      * apply Z.eqb_neq in Efull.
        match goal with
        | |- context [updatePoolSize_grow it ?w'] =>
            destruct (IH w' Hnd' eq_refl) as (visited & rest & E1 & E2 & E3 & E4)
        end.
        { cbn. rewrite length_snoc. lia. }
        assert (Hal : alive (host w) r = true) by (unfold alive; now rewrite Edead).
        exists (r :: visited), rest. cbn [filter map]. rewrite Hal. cbn in *.
        rewrite <- !app_assoc in *. cbn in *.
        rewrite E2. subst it. repeat split; assumption || reflexivity.
Qed.

Lemma updatePoolSize_spec (algo : PoolScalingSignature) (w : World) :
  let p := pool w in
  let newMax := algo (JsSet.size (activeObjects p)) (maxStrongPoolSize p)
                     (JsArray.length (strongPool p)) (JsSet.size (weakPool p))
                     (numGC p) in
  0 <= newMax ->
  NoDup (weakPool p) ->
  exists w',
    updatePoolSize algo w = (Normal tt, w')
    /\ host w' = host w
    /\ activeObjects (pool w') = activeObjects p
    /\ numActiveGC (pool w') = numActiveGC p
    /\ maxStrongPoolSize (pool w') = newMax
    /\ numGC (pool w') = 0
    /\ poolSizeUpdateScheduled (pool w') = false
    /\ JsArray.length (strongPool (pool w')) <= newMax
    /\ (newMax < JsArray.length (strongPool p) ->
        exists popped,
          strongPool p = strongPool (pool w') ++ popped
          /\ JsArray.length (strongPool (pool w')) = newMax
          /\ weakPool (pool w')
             = fold_left (JsSet.add WeakRef_eqb)
                         (map getWeakRef (rev popped)) (weakPool p))
    /\ (JsArray.length (strongPool p) < newMax ->
        exists visited rest,
          weakPool p = visited ++ rest
          /\ weakPool (pool w') = rest
          /\ strongPool (pool w')
             = strongPool p ++ map target (filter (alive (host w)) visited)
          /\ (rest = [] \/ JsArray.length (strongPool (pool w')) = newMax))
    /\ (JsArray.length (strongPool p) = newMax ->
        strongPool (pool w') = strongPool p /\ weakPool (pool w') = weakPool p).
Proof.
  cbv zeta. intros Hnn Hnd. rewrite updatePoolSize_unfold. cbv zeta.
  set (newMax := algo _ _ _ _ _) in *.
  destruct (newMax <? JsArray.length (strongPool (pool w))) eqn:Eshrink.
  - apply Z.ltb_lt in Eshrink.
    set (k := Z.to_nat newMax).
    assert (Hk : (k < List.length (strongPool (pool w)))%nat)
      by (unfold JsArray.length in Eshrink; lia).
    assert (Hkept : JsArray.length (firstn k (strongPool (pool w))) = newMax)
      by (unfold JsArray.length; rewrite length_firstn; lia).
    rewrite (updatePoolSize_shrink_closed
               (skipn k (strongPool (pool w))) (firstn k (strongPool (pool w)))).
    + eexists. split; [reflexivity|]. cbn.
      repeat split; try reflexivity; try lia; try (intros; lia).
      intros _. exists (skipn k (strongPool (pool w))).
      rewrite firstn_skipn. repeat split. exact Hkept.
    + cbn. symmetry. apply firstn_skipn.
    + intros E. apply (f_equal (@List.length Obj)) in E.
      rewrite length_skipn in E. cbn in E. lia.
    + cbn. exact Hkept.
    + rewrite length_skipn. lia.
  - apply Z.ltb_ge in Eshrink.
    destruct ((JsArray.length (strongPool (pool w)) <? newMax)
              && (0 <? JsSet.size (weakPool (pool w)))) eqn:Egrow.
    + apply andb_true_iff in Egrow. destruct Egrow as [Elt _].
      apply Z.ltb_lt in Elt.
      match goal with
      | |- context [updatePoolSize_grow ?it ?w1] =>
          destruct (updatePoolSize_grow_closed it w1 Hnd eq_refl Elt)
            as (visited & rest & E1 & E2 & E3 & E4)
      end.
      rewrite E2. cbn in *.
      eexists. split; [reflexivity|]. cbn.
      repeat split; try reflexivity; try lia; try (intros; lia).
      intros _. exists visited, rest. repeat split; assumption.
    + eexists. split; [reflexivity|]. cbn.
      repeat split; try reflexivity; try lia; try (intros; lia).
      intros Hlt. exists [], []. cbn. rewrite app_nil_r.
      apply andb_false_iff in Egrow. destruct Egrow as [E|E].
      * apply Z.ltb_ge in E. lia.
      * apply Z.ltb_ge in E. unfold JsSet.size in E.
        destruct (weakPool (pool w)); [|cbn in E; lia].
        repeat split. now left.
Qed.

(** Without any assumption on the answer of the scaling algorithm. *)
Lemma updatePoolSize_frame (algo : PoolScalingSignature) (w : World) :
  let w' := snd (updatePoolSize algo w) in
  host w' = host w
  /\ activeObjects (pool w') = activeObjects (pool w)
  /\ numActiveGC (pool w') = numActiveGC (pool w)
  /\ (numGC (pool w') = 0 \/ numGC (pool w') = numGC (pool w))
  /\ (NoDup (weakPool (pool w)) ->
      forall obj, (occurrences (pool w') obj <= occurrences (pool w) obj)%nat).
Proof.
  cbv zeta. rewrite updatePoolSize_unfold. cbv zeta.
  set (newMax := algo _ _ _ _ _).
  set (w1 := mkWorld (with_maxStrongPoolSize newMax (pool w)) (host w)).
  assert (Hocc : forall w2, (forall obj, (occurrences (pool w2) obj <= occurrences (pool w1) obj)%nat) ->
             forall obj, (occurrences (pool w2) obj <= occurrences (pool w) obj)%nat)
    by (intros w2 H obj; exact (H obj)).
  destruct (newMax <? JsArray.length (strongPool (pool w))).
  - pose proof (updatePoolSize_shrink_frame (S (List.length (strongPool (pool w)))) w1)
      as (Hh & Ha & Hs & Hg & Hag & Hm).
    pose proof (updatePoolSize_shrink_occurrences (S (List.length (strongPool (pool w)))) w1)
      as Ho.
    destruct (updatePoolSize_shrink _ w1) as [[[]|e] w2]; cbn in *;
      repeat split; try assumption; try (now left); try (now right);
      try (intros _; apply (Hocc w2); intros obj; apply Ho).
  - destruct ((_ <? _) && (_ <? _)).
    + pose proof (updatePoolSize_grow_frame (weakPool (pool w)) w1)
        as (Hn & Hh & Ha & Hs & Hg & Hag & Hm).
      pose proof (fun obj Hnd => updatePoolSize_grow_occurrences (weakPool (pool w)) w1 obj Hnd
                    (fun r H => H)) as Ho.
      destruct (updatePoolSize_grow _ w1) as [c w2]. cbn in Hn. subst c. cbn in *.
      repeat split; try assumption; try (now left).
      intros Hnd. apply (Hocc w2). intros obj. now apply Ho.
    + cbn. repeat split; try (now left).
Qed.

Lemma updatePoolSize_completes (algo : PoolScalingSignature) (w : World) :
  0 <= algo (JsSet.size (activeObjects (pool w))) (maxStrongPoolSize (pool w))
            (JsArray.length (strongPool (pool w))) (JsSet.size (weakPool (pool w)))
            (numGC (pool w)) ->
  fst (updatePoolSize algo w) = Normal tt
  /\ poolSizeUpdateScheduled (pool (snd (updatePoolSize algo w))) = false
  /\ host (snd (updatePoolSize algo w)) = host w
  /\ numGC (pool (snd (updatePoolSize algo w))) = 0.
Proof.
  intros Hnn. rewrite updatePoolSize_unfold. cbv zeta.
  set (newMax := algo _ _ _ _ _) in *.
  set (w1 := mkWorld (with_maxStrongPoolSize newMax (pool w)) (host w)).
  destruct (newMax <? JsArray.length (strongPool (pool w))) eqn:Eshrink.
  - apply Z.ltb_lt in Eshrink.
    set (k := Z.to_nat newMax).
    rewrite (updatePoolSize_shrink_closed
               (skipn k (strongPool (pool w))) (firstn k (strongPool (pool w)))).
    + cbn. tauto.
    + cbn. symmetry. apply firstn_skipn.
    + intros E. apply (f_equal (@List.length Obj)) in E.
      rewrite length_skipn in E. cbn in E. unfold JsArray.length in Eshrink. lia.
    + cbn. unfold JsArray.length in *. rewrite length_firstn. lia.
    + rewrite length_skipn. lia.
  - destruct ((_ <? _) && (_ <? _)).
    + pose proof (updatePoolSize_grow_frame (weakPool (pool w)) w1)
        as (Hn & Hh & _).
      destruct (updatePoolSize_grow _ w1) as [c w2]. cbn in Hn. subst c. cbn in *.
      tauto.
    + cbn. tauto.
Qed.

(** *** The finalization callback *)

Lemma objFinalizer_spec (r : WeakRef) (w : World) :
  let p := pool w in
  let w' := snd (objFinalizer r w) in
  fst (objFinalizer r w) = Normal tt
  /\ host w' = host w
  /\ strongPool (pool w') = strongPool p
  /\ maxStrongPoolSize (pool w') = maxStrongPoolSize p
  /\ poolSizeUpdateScheduled (pool w') = poolSizeUpdateScheduled p
  /\ weakPool (pool w') = JsSet.delete WeakRef_eqb (weakPool p) r
  /\ (if JsSet.has WeakRef_eqb (weakPool p) r
      then activeObjects (pool w') = activeObjects p
           /\ numActiveGC (pool w') = numActiveGC p
           /\ numGC (pool w')
              = (if numGC p =? MAX_SAFE_INTEGER then numGC p else numGC p + 1)
      else activeObjects (pool w') = JsSet.delete WeakRef_eqb (activeObjects p) r
           /\ numGC (pool w') = numGC p
           /\ numActiveGC (pool w')
              = (if JsSet.has WeakRef_eqb (activeObjects p) r
                 then (if numActiveGC p =? MAX_SAFE_INTEGER
                       then numActiveGC p else numActiveGC p + 1)
                 else numActiveGC p)).
Proof.
  js_unfold. cbn. repeat js_case; tauto.
Qed.

(** *** Events *)

Lemma release_spec (resetting : completion unit) (obj : Obj) (w : World) :
  let p := pool w in
  let w' := snd (release resetting obj w) in
  numGC (pool w') = numGC p
  /\ numActiveGC (pool w') = numActiveGC p
  /\ maxStrongPoolSize (pool w') = maxStrongPoolSize p
  /\ collected (host w') = collected (host w)
  /\ factoryCalls (host w') = factoryCalls (host w)
  /\ match resetting with
     | Normal _ =>
         poolSizeUpdateScheduled (pool w') = true
         /\ timers (host w')
            = (if poolSizeUpdateScheduled p
               then timers (host w) else S (timers (host w)))
     | Throw _ =>
         poolSizeUpdateScheduled (pool w') = poolSizeUpdateScheduled p
         /\ timers (host w') = timers (host w)
     end.
Proof.
  cbv zeta. destruct resetting as [[]|e].
  - rewrite release_normal. cbn [snd].
    pose proof (release_untrack_frame obj w) as (_ & Hp & Ht & Hc & Hf).
    pose proof (release_store_spec obj (snd (release_untrack obj w)))
      as (_ & _ & Hg & Hag & Hm & Hs & Ht' & Hc' & Hf').
    cbv zeta in *. rewrite Hp in *. cbn in *.
    rewrite Hg, Hag, Hm, Hs, Ht', Hc', Hf', Ht, Hc, Hf. tauto.
  - rewrite release_throw. cbn [snd].
    pose proof (release_untrack_frame obj w) as (_ & Hp & Ht & Hc & Hf).
    cbv zeta in *. rewrite Hp, Ht, Hc, Hf. cbn. tauto.
Qed.

Lemma run_timer_unfold (algo : PoolScalingSignature) (w : World) :
  run_timer algo w
  = updatePoolSize algo
      (mkWorld (pool w)
               (mkHost (collected (host w)) (registry (host w))
                       (Nat.pred (timers (host w))) (factoryCalls (host w)))).
Proof. reflexivity. Qed.

Lemma exec_numActiveGC (algo : PoolScalingSignature) (e : Event) (w : World) :
  numActiveGC (pool w) <= numActiveGC (pool (exec algo e w)).
Proof.
  destruct e as [created|resetting obj| |obj|r]; cbn [exec].
  - pose proof (acquire_frame created w) as (_ & _ & H & _). cbv zeta in H. lia.
  - pose proof (release_spec resetting obj w) as (_ & H & _). cbv zeta in H. lia.
  - rewrite run_timer_unfold.
    match goal with
    | |- context [updatePoolSize algo ?w'] =>
        pose proof (updatePoolSize_frame algo w') as (_ & _ & H & _)
    end.
    cbv zeta in H. rewrite H. cbn. lia.
  - cbn. lia.
  - pose proof (objFinalizer_spec r w) as (_ & _ & _ & _ & _ & _ & H).
    cbv zeta in H.
    destruct (JsSet.has WeakRef_eqb (weakPool (pool w)) r).
    + destruct H as (_ & H & _). lia.
    + destruct H as (_ & _ & H). rewrite H.
      destruct (JsSet.has WeakRef_eqb (activeObjects (pool w)) r); [|lia].
      destruct (numActiveGC (pool w) =? MAX_SAFE_INTEGER); lia.
Qed.

Lemma exec_numGC (algo : PoolScalingSignature) (e : Event) (w : World) :
  numGC (pool w) <= numGC (pool (exec algo e w))
  \/ (e = EvTimer /\ numGC (pool (exec algo e w)) = 0).
Proof.
  destruct e as [created|resetting obj| |obj|r]; cbn [exec].
  - left. pose proof (acquire_frame created w) as (_ & H & _). cbv zeta in H. lia.
  - left. pose proof (release_spec resetting obj w) as (H & _). cbv zeta in H. lia.
  - rewrite run_timer_unfold.
    match goal with
    | |- context [updatePoolSize algo ?w'] =>
        pose proof (updatePoolSize_frame algo w') as (_ & _ & _ & [H|H] & _)
    end; cbv zeta in H.
    + right. split; [reflexivity | exact H].
    + left. rewrite H. cbn. lia.
  - left. cbn. lia.
  - left. pose proof (objFinalizer_spec r w) as (_ & _ & _ & _ & _ & _ & H).
    cbv zeta in H.
    destruct (JsSet.has WeakRef_eqb (weakPool (pool w)) r).
    + destruct H as (_ & _ & H). rewrite H.
      destruct (numGC (pool w) =? MAX_SAFE_INTEGER); lia.
    + destruct H as (_ & H & _). lia.
Qed.

(** *** Invariants *)

Lemma count_add_le (s : list WeakRef) (x y : WeakRef) :
  (count_occ WeakRef_eq_dec (JsSet.add WeakRef_eqb s x) y
   <= count_occ WeakRef_eq_dec s y + if WeakRef_eq_dec x y then 1 else 0)%nat.
Proof.
  pose proof (count_add s x y) as H.
  destruct (WeakRef_eq_dec x y); [|lia].
  destruct (JsSet.has WeakRef_eqb s x); lia.
Qed.

Lemma unknown_occurrences (obj : Obj) (p : Pool) :
  unknown obj p = true -> occurrences p obj = O.
Proof.
  unfold unknown. rewrite !andb_true_iff, !negb_true_iff.
  intros [[Ha Hs] Hw]. unfold occurrences.
  rewrite (count_absent _ _ Ha), (count_absent _ _ Hw).
  apply includes_not_In in Hs.
  rewrite (proj1 (count_occ_not_In Nat.eq_dec _ _) Hs). reflexivity.
Qed.

Lemma acquire_tiers_disjoint (created : completion Obj) (w : World) :
  enabled (EvAcquire created) w = true ->
  tiers_disjoint (pool w) ->
  tiers_disjoint (pool (snd (acquire created w))).
Proof.
  intros Hen Hinv obj.
  destruct (array_cases (strongPool (pool w))) as [E | (a & x & E)].
  - cbn in Hen. rewrite E in Hen.
    js_unfold. cbn. rewrite E, pop_nil. cbn.
    destruct created as [o|e]; cbn.
    + pose proof (unknown_occurrences o (pool w) Hen) as H0.
      specialize (Hinv obj). revert H0 Hinv. unfold occurrences. cbn. rewrite E.
      pose proof (count_add_le (activeObjects (pool w)) (getWeakRef o) (getWeakRef obj)) as Hadd.
      destruct (WeakRef_eq_dec (getWeakRef o) (getWeakRef obj)) as [Eo|Eo].
      * apply getWeakRef_inj in Eo. subst o. lia.
      * lia.
    + specialize (Hinv obj). revert Hinv. unfold occurrences. cbn. now rewrite E.
  - rewrite (acquire_nonempty _ _ _ _ E). cbn.
    match goal with
    | |- context [acquire_backfill ?it ?w'] =>
        pose proof (acquire_backfill_frame it w') as (_ & _ & Ha & _);
        pose proof (acquire_backfill_occurrences it w' obj) as Ho;
        set (w1 := snd (acquire_backfill it w')) in *
    end.
    cbn in Ha, Ho.
    specialize (Ho (NoDup_weakPool _ Hinv) (fun r H => H)).
    specialize (Hinv obj). revert Ho Hinv. unfold occurrences. cbn. rewrite E, Ha, count_snoc.
    pose proof (count_add_le (activeObjects (pool w)) (getWeakRef x) (getWeakRef obj)) as Hadd.
    destruct (WeakRef_eq_dec (getWeakRef x) (getWeakRef obj)) as [Eo|Eo].
    + apply getWeakRef_inj in Eo. subst x. destruct (Nat.eq_dec obj obj); [lia|congruence].
    + lia.
Qed.

Lemma release_tiers_disjoint (resetting : completion unit) (obj : Obj) (w : World) :
  enabled (EvRelease resetting obj) w = true ->
  tiers_disjoint (pool w) ->
  tiers_disjoint (pool (snd (release resetting obj w))).
Proof.
  intros Hen Hinv o. cbn in Hen. apply andb_true_iff in Hen. destruct Hen as [Hact _].
  apply count_has in Hact. specialize (Hinv o). revert Hinv.
  pose proof (release_untrack_frame obj w) as (_ & Hp & _). cbv zeta in Hp.
  destruct resetting as [[]|e].
  - rewrite release_normal. cbn [snd].
    pose proof (release_store_spec obj (snd (release_untrack obj w)))
      as (Hsw & Ha & _).
    cbv zeta in Hsw, Ha. rewrite Hp in Hsw, Ha. cbn in Hsw, Ha.
    unfold occurrences. rewrite Ha, count_delete.
    pose proof (count_add_le (weakPool (pool w)) (getWeakRef obj) (getWeakRef o)) as Hadd.
    destruct (JsArray.length (strongPool (pool w)) <? maxStrongPoolSize (pool w));
      destruct Hsw as [Hs Hw]; rewrite Hs, Hw; rewrite ?count_snoc;
      (destruct (Nat.eq_dec obj o) as [->|Hne];
       [ destruct (WeakRef_eq_dec (getWeakRef o) (getWeakRef o)); [lia|congruence]
       | destruct (WeakRef_eq_dec (getWeakRef obj) (getWeakRef o)) as [Eo|Eo];
         [apply getWeakRef_inj in Eo; congruence | lia] ]).
  - rewrite release_throw. cbn [snd]. rewrite Hp. unfold occurrences. cbn.
    rewrite count_delete.
    destruct (WeakRef_eq_dec (getWeakRef obj) (getWeakRef o)); lia.
Qed.

Lemma objFinalizer_tiers_disjoint (r : WeakRef) (w : World) :
  tiers_disjoint (pool w) -> tiers_disjoint (pool (snd (objFinalizer r w))).
Proof.
  intros Hinv o. specialize (Hinv o). revert Hinv.
  pose proof (objFinalizer_spec r w) as (_ & _ & Hs & _ & _ & Hw & H).
  cbv zeta in *. unfold occurrences. rewrite Hs, Hw, count_delete.
  destruct (JsSet.has WeakRef_eqb (weakPool (pool w)) r).
  - destruct H as (Ha & _). rewrite Ha.
    destruct (WeakRef_eq_dec r (getWeakRef o)); lia.
  - destruct H as (Ha & _). rewrite Ha, count_delete.
    destruct (WeakRef_eq_dec r (getWeakRef o)); lia.
Qed.

Lemma exec_tiers_disjoint (algo : PoolScalingSignature) (e : Event) (w : World) :
  enabled e w = true ->
  tiers_disjoint (pool w) ->
  tiers_disjoint (pool (exec algo e w)).
Proof.
  intros Hen Hinv.
  destruct e as [created|resetting obj| |obj|r]; cbn [exec].
  - now apply acquire_tiers_disjoint.
  - now apply release_tiers_disjoint.
  - rewrite run_timer_unfold.
    match goal with
    | |- context [updatePoolSize algo ?w'] =>
        pose proof (updatePoolSize_frame algo w') as (_ & _ & _ & _ & H)
    end.
    cbv zeta in H. intros o. etransitivity; [apply H|apply Hinv].
    cbn. now apply NoDup_weakPool.
  - exact Hinv.
  - now apply objFinalizer_tiers_disjoint.
Qed.

Lemma constructor_tiers_disjoint (algo : PoolScalingSignature) :
  tiers_disjoint (pool (constructor algo)).
Proof. intros obj. cbn. lia. Qed.

Lemma reachable_tiers_disjoint (algo : PoolScalingSignature) (w : World) :
  reachable algo w -> tiers_disjoint (pool w).
Proof.
  induction 1 as [|w e Hr IH Hen].
  - apply constructor_tiers_disjoint.
  - now apply exec_tiers_disjoint.
Qed.

Lemma exec_debounced (algo : PoolScalingSignature) (e : Event) (w : World) :
  (forall a c s k g, 0 <= algo a c s k g) ->
  enabled e w = true ->
  debounced w -> debounced (exec algo e w).
Proof.
  unfold debounced. intros Hnn Hen Hinv.
  destruct e as [created|resetting obj| |obj|r]; cbn [exec].
  - pose proof (acquire_frame created w) as (Hs & _ & _ & _ & Ht & _).
    cbv zeta in *. now rewrite Hs, Ht.
  - pose proof (release_spec resetting obj w) as (_ & _ & _ & _ & _ & H).
    cbv zeta in H. destruct resetting; destruct H as [Hs Ht]; rewrite Hs, Ht.
    + destruct (poolSizeUpdateScheduled (pool w)); lia.
    + exact Hinv.
  - rewrite run_timer_unfold.
    match goal with
    | |- context [updatePoolSize algo ?w'] =>
        pose proof (updatePoolSize_completes algo w' (Hnn _ _ _ _ _)) as (_ & Hs & Hh & _)
    end.
    rewrite Hs, Hh. cbn. unfold enabled in Hen. apply Nat.ltb_lt in Hen.
    destruct (poolSizeUpdateScheduled (pool w)); lia.
  - exact Hinv.
  - pose proof (objFinalizer_spec r w) as (_ & Hh & _ & _ & Hs & _).
    cbv zeta in *. now rewrite Hh, Hs.
Qed.

Lemma reachable_debounced (algo : PoolScalingSignature) (w : World) :
  (forall a c s k g, 0 <= algo a c s k g) ->
  reachable algo w -> debounced w.
Proof.
  intros Hnn. induction 1 as [|w e Hr IH Hen].
  - reflexivity.
  - now apply exec_debounced.
Qed.

Lemma run_reachable (algo : PoolScalingSignature) (es : list Event) (w : World) :
  reachable algo w -> runnable algo es w = true -> reachable algo (run algo es w).
Proof.
  revert w. induction es as [|e es IH]; intros w Hr Hen.
  - exact Hr.
  - cbn in Hen. apply andb_true_iff in Hen. destruct Hen as [He Hes].
    cbn. apply IH; [|exact Hes]. now apply reachable_exec.
Qed.

Lemma run_cons (algo : PoolScalingSignature) (e : Event) (es : list Event) (w : World) :
  run algo (e :: es) w = run algo es (exec algo e w).
Proof. reflexivity. Qed.

Lemma run_numActiveGC (algo : PoolScalingSignature) (es : list Event) (w : World) :
  numActiveGC (pool w) <= numActiveGC (pool (run algo es w)).
Proof.
  revert w. induction es as [|e es IH]; intros w; cbn.
  - lia.
  - etransitivity; [apply (exec_numActiveGC algo e w) | apply IH].
Qed.

Lemma run_numGC (algo : PoolScalingSignature) (es : list Event) (w : World) :
  ~ In EvTimer es -> numGC (pool w) <= numGC (pool (run algo es w)).
Proof.
  revert w. induction es as [|e es IH]; intros w Hno; cbn.
  - lia.
  - destruct (exec_numGC algo e w) as [H|[H _]].
    + etransitivity; [exact H|]. apply IH. intros Hin. apply Hno. now right.
    + exfalso. apply Hno. now left.
Qed.

(** The private field [#numActiveGC] is written by the finalization
    callback only. *)
Lemma numActiveGC_field_acquire_release
    (algo : PoolScalingSignature) (es : list Event) (w : World) :
  Forall (fun e => match e with
                   | EvAcquire _ | EvRelease _ _ => True
                   | _ => False
                   end) es ->
  numActiveGC (pool (run algo es w)) = numActiveGC (pool w).
Proof.
  intros Hall. revert w. induction Hall as [|e es He Hes IH]; intros w.
  - reflexivity.
  - rewrite run_cons, IH.
    destruct e as [created|resetting obj| | |]; try contradiction; cbn [exec].
    + now pose proof (acquire_frame created w) as (_ & _ & H & _).
    + now pose proof (release_spec resetting obj w) as (_ & H & _).
Qed.

Lemma releaseAll_armed (objs : list Obj) (w : World) :
  poolSizeUpdateScheduled (pool w) = true ->
  poolSizeUpdateScheduled (pool (releaseAll objs w)) = true
  /\ timers (host (releaseAll objs w)) = timers (host w).
Proof.
  revert w. induction objs as [|obj objs IH]; intros w Hs.
  - now split.
  - change (releaseAll (obj :: objs) w)
      with (releaseAll objs (snd (release (Normal tt) obj w))).
    pose proof (release_spec (Normal tt) obj w) as (_ & _ & _ & _ & _ & Hs' & Ht).
    cbv zeta in Hs', Ht. rewrite Hs in Ht.
    destruct (IH _ Hs') as [H1 H2]. split; [exact H1 | congruence].
Qed.

(** *** The scenario of the test suite, with the default algorithm *)

Example default_initial_capacity :
  maxStrongPoolSize (pool (constructor defaultScaling)) = 5.
Proof. vm_compute. reflexivity. Qed.

Example overflow_then_backfill :
  let w := run defaultScaling overflow_events (constructor defaultScaling) in
  let w' := run defaultScaling [EvTimer; EvAcquire (Normal 6%nat)] w in
  (List.length (strongPool (pool w)), List.length (weakPool (pool w))) = (5, 1)%nat
  /\ maxStrongPoolSize (pool w') = 5
  /\ (List.length (strongPool (pool w')), List.length (weakPool (pool w')),
      List.length (activeObjects (pool w'))) = (5, 0, 1)%nat
  /\ factoryCalls (host w') = factoryCalls (host w).
Proof. vm_compute. repeat split. Qed.

(** *** Capacities of at least 1 *)

Lemma acquire_backfill_exhausts (it : list WeakRef) :
  forall w : World,
    NoDup it ->
    weakPool (pool w) = it ->
    weakPool (pool (snd (acquire_backfill it w))) = []
    \/ strongPool (pool (snd (acquire_backfill it w))) <> [].
Proof.
  induction it as [|r it IH]; intros w Hnd Hw.
  - left. exact Hw.
  - cbn [acquire_backfill]. js_unfold. cbn.
    rewrite Hw, (delete_head _ _ Hnd). js_case.
    + apply IH; [now inversion Hnd | reflexivity].
    + right. intros E. apply (f_equal (@List.length Obj)) in E.
      rewrite length_app in E. cbn in E. lia.
Qed.

Lemma exec_backed (algo : PoolScalingSignature) (e : Event) (w : World) :
  (forall a c s k g, 1 <= algo a c s k g) ->
  tiers_disjoint (pool w) ->
  backed (pool w) -> backed (pool (exec algo e w)).
Proof.
  unfold backed. intros Hpos Hinv [Hmax Hback].
  destruct e as [created|resetting obj| |obj|r]; cbn [exec].
  - pose proof (acquire_frame created w) as (_ & _ & _ & Hm & _).
    cbv zeta in Hm. rewrite Hm. split; [exact Hmax|].
    destruct (array_cases (strongPool (pool w))) as [E | (a & x & E)].
    + destruct (acquire_empty created w E) as (_ & _ & Hs & Hw).
      left. rewrite Hw. destruct Hback as [H|H]; [exact H | congruence].
    + rewrite (acquire_nonempty _ _ _ _ E). cbn.
      match goal with
      | |- context [acquire_backfill ?it ?w'] =>
          apply (acquire_backfill_exhausts it w')
      end; [now apply NoDup_weakPool | reflexivity].
  - pose proof (release_spec resetting obj w) as (_ & _ & Hm & _).
    cbv zeta in Hm. rewrite Hm. split; [exact Hmax|].
    pose proof (release_untrack_frame obj w) as (_ & Hp & _). cbv zeta in Hp.
    destruct resetting as [[]|x].
    + rewrite release_normal. cbn [snd].
      pose proof (release_store_spec obj (snd (release_untrack obj w))) as (Hsw & _).
      cbv zeta in Hsw. rewrite Hp in Hsw. cbn in Hsw.
      destruct (JsArray.length (strongPool (pool w)) <? maxStrongPoolSize (pool w)) eqn:E;
        destruct Hsw as [Hs Hw]; rewrite Hs.
      * right. intros E'. apply (f_equal (@List.length Obj)) in E'.
        rewrite length_app in E'. cbn in E'. lia.
      * right. apply Z.ltb_ge in E. intros E'. rewrite E' in E.
        unfold JsArray.length in E. cbn in E. lia.
    + rewrite release_throw. cbn [snd]. rewrite Hp. exact Hback.
  - rewrite run_timer_unfold.
    match goal with
    | |- context [updatePoolSize algo ?w'] =>
        destruct (updatePoolSize_spec algo w') as (w2 & E & _ & _ & _ & Hm & _ & _ & _ & Hlt & Hgt & Heq)
    end.
    { cbn. pose proof (Hpos (JsSet.size (activeObjects (pool w))) (maxStrongPoolSize (pool w))
                         (JsArray.length (strongPool (pool w))) (JsSet.size (weakPool (pool w)))
                         (numGC (pool w))). lia. }
    { cbn. now apply NoDup_weakPool. }
    rewrite E. cbn [snd]. cbn in Hm, Hlt, Hgt, Heq. rewrite Hm.
    split; [apply Hpos|].
    set (newMax := algo _ _ _ _ _) in *.
    assert (Hpos' : 1 <= newMax) by apply Hpos.
    destruct (Z.lt_trichotomy newMax (JsArray.length (strongPool (pool w)))) as [H|[H|H]].
    + destruct (Hlt H) as (popped & _ & Hl & _). right. intros E'.
      rewrite E' in Hl. unfold JsArray.length in Hl. cbn in Hl. lia.
    + destruct (Heq (eq_sym H)) as [Hs Hw]. rewrite Hs, Hw. exact Hback.
    + destruct (Hgt H) as (visited & rest & Hw & Hw' & Hs & _).
      destruct Hback as [Hb|Hb].
      * left. rewrite Hw', Hb in *. symmetry in Hw.
        apply app_eq_nil in Hw. tauto.
      * right. rewrite Hs. intros E'. apply app_eq_nil in E'. tauto.
  - exact (conj Hmax Hback).
  - pose proof (objFinalizer_spec r w) as (_ & _ & Hs & Hm & _ & Hw & _).
    cbv zeta in *. rewrite Hs, Hm, Hw. split; [exact Hmax|].
    destruct Hback as [H|H]; [left; now rewrite H | now right].
Qed.

Lemma reachable_backed (algo : PoolScalingSignature) (w : World) :
  (forall a c s k g, 1 <= algo a c s k g) ->
  reachable algo w -> backed (pool w).
Proof.
  intros Hpos. induction 1 as [|w e Hr IH Hen].
  - split; [apply Hpos | now left].
  - apply exec_backed; [exact Hpos | | exact IH].
    exact (reachable_tiers_disjoint algo w Hr).
Qed.

(** *** The statements of the specification *)

(** C1 (as amended). [acquire] never calls the factory while the strong
    pool is non-empty, and calls it exactly once when the strong pool is
    empty, whatever the weak pool holds. In a state reached with a scaling
    algorithm whose capacities are all at least 1, a weak pool that holds a
    live reference comes with a non-empty strong pool, so there the factory
    is called only when neither pool has an object to reuse. *)
Theorem acquire_calls_factory_iff_strong_empty
    (created : completion Obj) (w : World) :
  (0 < JsArray.length (strongPool (pool w)) ->
   factoryCalls (host (snd (acquire created w))) = factoryCalls (host w))
  /\ (JsArray.length (strongPool (pool w)) = 0 ->
      factoryCalls (host (snd (acquire created w))) = S (factoryCalls (host w)))
  /\ (forall algo : PoolScalingSignature,
        (forall a c s k g, 1 <= algo a c s k g) ->
        reachable algo w ->
        (exists r, In r (weakPool (pool w)) /\ alive (host w) r = true) ->
        factoryCalls (host (snd (acquire created w))) = factoryCalls (host w)).
Proof.
  assert (Hnonempty : forall a x, strongPool (pool w) = a ++ [x] ->
            factoryCalls (host (snd (acquire created w))) = factoryCalls (host w)).
  { intros a x E. rewrite (acquire_nonempty _ _ _ _ E). cbn.
    match goal with
    | |- context [acquire_backfill ?it ?w'] =>
        pose proof (acquire_backfill_frame it w') as (_ & Hh & _)
    end.
    now rewrite Hh. }
  destruct (array_cases (strongPool (pool w))) as [E | (a & x & E)].
  - split; [|split].
    + intros H. rewrite E in H. unfold JsArray.length in H. cbn in H. lia.
    + intros _. now apply acquire_empty.
    + intros algo Hpos Hr (r & Hin & _).
      destruct (reachable_backed algo w Hpos Hr) as [_ [Hw|Hs]].
      * rewrite Hw in Hin. contradiction.
      * congruence.
  - split; [|split].
    + intros _. exact (Hnonempty a x E).
    + intros H. rewrite E, length_snoc in H. unfold JsArray.length in H. lia.
    + intros algo _ _ _. exact (Hnonempty a x E).
Qed.

Lemma acquire_calls_factory_iff_strong_empty_witness :
  factoryCalls (host (snd (acquire (Normal 9%nat) overflow_world)))
  = factoryCalls (host overflow_world)
  /\ factoryCalls (host (snd (acquire (Normal 9%nat) stranded_world)))
     = S (factoryCalls (host stranded_world)).
Proof.
  split.
  - apply (proj2 (proj2 (acquire_calls_factory_iff_strong_empty (Normal 9%nat) overflow_world))
             (fixedCapacity 5)).
    + intros. unfold fixedCapacity. lia.
    + apply run_reachable; [constructor | vm_compute; reflexivity].
    + exists (getWeakRef 5%nat). split; [vm_compute; now left | vm_compute; reflexivity].
  - apply (proj1 (proj2 (acquire_calls_factory_iff_strong_empty (Normal 9%nat) stranded_world))).
    vm_compute. reflexivity.
Defined.

(** C1 (as stated) fails: in a state reached with a scaling algorithm
    that answers 0, the strong pool is empty, the weak pool refers to a
    live object, and [acquire] calls the factory. *)
Lemma acquire_calls_factory_despite_live_weak_reference :
  ~ (forall (algo : PoolScalingSignature) (w : World) (created : completion Obj),
       reachable algo w ->
       (0 < JsArray.length (strongPool (pool w))
        \/ exists r, In r (weakPool (pool w)) /\ alive (host w) r = true) ->
       factoryCalls (host (snd (acquire created w))) = factoryCalls (host w)).
Proof.
  intros claim.
  specialize (claim (fixedCapacity 0) stranded_world (Normal 1%nat)).
  assert (Hreach : reachable (fixedCapacity 0) stranded_world).
  { apply run_reachable; [constructor | vm_compute; reflexivity]. }
  specialize (claim Hreach).
  assert (Hlive : exists r, In r (weakPool (pool stranded_world))
                            /\ alive (host stranded_world) r = true).
  { exists (getWeakRef 0%nat). split; [now left | reflexivity]. }
  specialize (claim (or_intror Hlive)).
  vm_compute in claim. discriminate.
Qed.

(** C2. Reading [numActiveGC] does not return: the accessor calls itself
    until the stack is exhausted, whatever room the stack had, and leaves
    the pool untouched. *)
Theorem numActiveGC_accessor_overflows (stack : nat) (w : World) :
  get_numActiveGC stack w = (Throw RangeError, w)
  /\ forall n : Z, fst (get_numActiveGC stack w) <> Normal n.
Proof.
  rewrite get_numActiveGC_throws. split; [reflexivity | discriminate].
Qed.

(** C4. If the factory throws during [acquire], or [reset] throws during
    [release], the caller receives the thrown value unchanged. After a
    failed factory call the pool is what it was before [acquire]. After a
    failed [reset] the world is what it was when [reset] was called: the
    object has left the active set (and, if it was not active, has been
    registered for finalization); the strong pool, the weak pool, the
    counters, the capacity and the debounce flag are those before the
    call, and no timer task has been added. *)
Theorem callback_failure_propagates (e : Exn) (obj : Obj) (w : World) :
  (strongPool (pool w) = [] ->
     fst (acquire (Throw e) w) = Throw e
     /\ pool (snd (acquire (Throw e) w)) = pool w
     /\ registry (host (snd (acquire (Throw e) w))) = registry (host w)
     /\ timers (host (snd (acquire (Throw e) w))) = timers (host w))
  /\ fst (release (Throw e) obj w) = Throw e
  /\ snd (release (Throw e) obj w) = snd (release_untrack obj w)
  /\ pool (snd (release (Throw e) obj w))
     = with_activeObjects
         (JsSet.delete WeakRef_eqb (activeObjects (pool w)) (getWeakRef obj))
         (pool w)
  /\ timers (host (snd (release (Throw e) obj w))) = timers (host w).
Proof.
  split.
  - intros E. js_unfold. cbn. rewrite E, pop_nil. cbn.
    repeat split. destruct w as [p h], p. cbn in *. now subst.
  - rewrite release_throw. cbn [fst snd].
    pose proof (release_untrack_frame obj w) as (_ & Hp & Ht & _).
    repeat split; assumption.
Qed.

Lemma callback_failure_propagates_witness :
  fst (acquire (Throw (UserError 7)) stranded_world) = Throw (UserError 7)
  /\ pool (snd (acquire (Throw (UserError 7)) stranded_world)) = pool stranded_world.
Proof.
  pose proof (proj1 (callback_failure_propagates (UserError 7) 0%nat stranded_world))
    as H.
  destruct (H eq_refl) as (H1 & H2 & _). split; assumption.
Defined.

(** C5. In every state reached from the constructor by acquiring,
    releasing checked-out objects, running the pending rescale,
    reclamation and finalization, every object is held at most once, in
    at most one of the active set, the strong pool and the weak pool: the
    three queries are pairwise exclusive. *)
Theorem tiers_mutually_exclusive
    (algo : PoolScalingSignature) (w : World) (obj : Obj) :
  reachable algo w ->
  (occurrences (pool w) obj <= 1)%nat
  /\ (fst (isActive obj w) = Normal true ->
      fst (isStrongPooled obj w) = Normal false
      /\ fst (isWeakPooled obj w) = Normal false)
  /\ (fst (isStrongPooled obj w) = Normal true ->
      fst (isActive obj w) = Normal false
      /\ fst (isWeakPooled obj w) = Normal false)
  /\ (fst (isWeakPooled obj w) = Normal true ->
      fst (isActive obj w) = Normal false
      /\ fst (isStrongPooled obj w) = Normal false).
Proof.
  intros Hr. pose proof (reachable_tiers_disjoint algo w Hr obj) as Hocc.
  split; [exact Hocc|].
  unfold isActive, isStrongPooled, isWeakPooled, read. cbn [fst].
  unfold occurrences in Hocc.
  destruct (JsSet.has WeakRef_eqb (activeObjects (pool w)) (getWeakRef obj)) eqn:Ea;
    destruct (JsArray.includes (strongPool (pool w)) obj) eqn:Es;
    destruct (JsSet.has WeakRef_eqb (weakPool (pool w)) (getWeakRef obj)) eqn:Ew;
    try apply count_has in Ea; try apply count_includes in Es;
    try apply count_has in Ew;
    repeat split; intros; try reflexivity; try discriminate; lia.
Qed.

Lemma tiers_mutually_exclusive_witness :
  (occurrences (pool overflow_world) 5%nat <= 1)%nat
  /\ fst (isActive 5%nat overflow_world) = Normal false
  /\ fst (isStrongPooled 5%nat overflow_world) = Normal false.
Proof.
  assert (Hr : reachable (fixedCapacity 5) overflow_world)
    by (apply run_reachable; [constructor | vm_compute; reflexivity]).
  destruct (tiers_mutually_exclusive (fixedCapacity 5) overflow_world 5%nat Hr)
    as (H1 & _ & _ & H4).
  split; [exact H1 | apply H4; vm_compute; reflexivity].
Defined.

(** C6. With a scaling algorithm that answers non-negative capacities, at
    most one rescale is pending in every reachable state. A release that
    finds the debounce flag clear sets it and adds one timer task; a
    release that finds it set adds none. So after [N >= 1] releases in a
    row exactly one task is pending, and when the scheduler runs it, it
    completes, nothing is pending any more and the flag is clear. *)
Theorem releases_arm_one_rescale
    (algo : PoolScalingSignature) (w : World) (obj : Obj) (objs : list Obj) :
  (forall a c s k g, 0 <= algo a c s k g) ->
  reachable algo w ->
  let w1 := snd (release (Normal tt) obj w) in
  let wN := releaseAll objs w1 in
  (timers (host w) <= 1)%nat
  /\ (poolSizeUpdateScheduled (pool w) = false ->
      timers (host w) = 0%nat /\ timers (host w1) = 1%nat)
  /\ (poolSizeUpdateScheduled (pool w) = true -> timers (host w1) = timers (host w))
  /\ poolSizeUpdateScheduled (pool w1) = true
  /\ timers (host wN) = 1%nat
  /\ poolSizeUpdateScheduled (pool wN) = true
  /\ fst (run_timer algo wN) = Normal tt
  /\ timers (host (snd (run_timer algo wN))) = 0%nat
  /\ poolSizeUpdateScheduled (pool (snd (run_timer algo wN))) = false.
Proof.
  intros Hnn Hr w1 wN.
  pose proof (reachable_debounced algo w Hnn Hr) as Hd. unfold debounced in Hd.
  pose proof (release_spec (Normal tt) obj w) as (_ & _ & _ & _ & _ & Hs1 & Ht1).
  cbv zeta in Hs1, Ht1. fold w1 in Hs1, Ht1.
  destruct (releaseAll_armed objs w1 Hs1) as [HsN HtN]. fold wN in HsN, HtN.
  assert (Hone : timers (host w1) = 1%nat)
    by (destruct (poolSizeUpdateScheduled (pool w)); lia).
  rewrite run_timer_unfold.
  match goal with
  | |- context [updatePoolSize algo ?w'] =>
      pose proof (updatePoolSize_completes algo w' (Hnn _ _ _ _ _))
        as (Hc & Hs & Hh & _)
  end.
  rewrite Hc, Hs, Hh. cbn [host timers].
  destruct (poolSizeUpdateScheduled (pool w)) eqn:E;
    repeat split; intros; try discriminate; try lia; try assumption.
Qed.

Lemma releases_arm_one_rescale_witness :
  timers (host (releaseAll [7%nat; 8%nat]
                  (snd (release (Normal tt) 9%nat (constructor (fixedCapacity 5))))))
  = 1%nat.
Proof.
  assert (Hnn : forall a c s k g, 0 <= fixedCapacity 5 a c s k g)
    by (intros; unfold fixedCapacity; lia).
  exact (proj1 (proj2 (proj2 (proj2 (proj2
           (releases_arm_one_rescale (fixedCapacity 5) (constructor (fixedCapacity 5))
              9%nat [7%nat; 8%nat] Hnn (reachable_constructor _))))))).
Defined.

(** C7. When the rescale runs from any state (whose weak pool, being a
    set, holds no reference twice) and the scaling algorithm answers a
    non-negative capacity on the statistics of that state (active count,
    old capacity, strong length, weak size, [numGC]), it completes with
    that capacity as the new one, [numGC] is 0, the debounce flag is
    clear and the strong pool is no longer than the capacity. If the
    capacity is below the strong length, objects are popped from the
    strong pool, last first, and their references added to the weak pool,
    until the length is the capacity. If it is above, references are
    taken from the weak pool in order, the live ones are pushed on the
    strong pool and the dead ones dropped, until the capacity is reached
    or the weak pool is empty. If it is equal, both are left alone. *)
Theorem rescale_converges (algo : PoolScalingSignature) (w : World) :
  let p := pool w in
  let newMax := algo (JsSet.size (activeObjects p)) (maxStrongPoolSize p)
                     (JsArray.length (strongPool p)) (JsSet.size (weakPool p))
                     (numGC p) in
  0 <= newMax ->
  NoDup (weakPool p) ->
  exists w',
    updatePoolSize algo w = (Normal tt, w')
    /\ host w' = host w
    /\ activeObjects (pool w') = activeObjects p
    /\ numActiveGC (pool w') = numActiveGC p
    /\ maxStrongPoolSize (pool w') = newMax
    /\ numGC (pool w') = 0
    /\ poolSizeUpdateScheduled (pool w') = false
    /\ JsArray.length (strongPool (pool w')) <= newMax
    /\ (newMax < JsArray.length (strongPool p) ->
        exists popped,
          strongPool p = strongPool (pool w') ++ popped
          /\ JsArray.length (strongPool (pool w')) = newMax
          /\ weakPool (pool w')
             = fold_left (JsSet.add WeakRef_eqb)
                         (map getWeakRef (rev popped)) (weakPool p))
    /\ (JsArray.length (strongPool p) < newMax ->
        exists visited rest,
          weakPool p = visited ++ rest
          /\ weakPool (pool w') = rest
          /\ strongPool (pool w')
             = strongPool p ++ map target (filter (alive (host w)) visited)
          /\ (rest = [] \/ JsArray.length (strongPool (pool w')) = newMax))
    /\ (JsArray.length (strongPool p) = newMax ->
        strongPool (pool w') = strongPool p /\ weakPool (pool w') = weakPool p).
Proof. exact (updatePoolSize_spec algo w). Qed.

Lemma rescale_converges_witness :
  exists w',
    updatePoolSize (fixedCapacity 2) overflow_world = (Normal tt, w')
    /\ JsArray.length (strongPool (pool w')) <= 2.
Proof.
  assert (Hnn : 0 <= 2) by lia.
  assert (Hnd : NoDup (weakPool (pool overflow_world)))
    by (vm_compute; repeat constructor; intros []).
  destruct (rescale_converges (fixedCapacity 2) overflow_world Hnn Hnd)
    as (w' & H1 & _ & _ & _ & _ & _ & _ & H2 & _).
  exists w'. split; assumption.
Defined.

(** C8. A [release] whose [reset] returns pushes the object on the strong
    pool when, at the call, the strong pool is shorter than the capacity:
    [numStrongPooledRefs] grows by exactly 1 and the weak pool, hence
    [numWeakPooledRefs], is unchanged. Otherwise the reference of the
    object is added to the weak pool and the strong pool is unchanged. *)
Theorem release_stores_by_capacity (obj : Obj) (w : World) :
  let p := pool w in
  let w' := snd (release (Normal tt) obj w) in
  fst (release (Normal tt) obj w) = Normal tt
  /\ (JsArray.length (strongPool p) < maxStrongPoolSize p ->
      strongPool (pool w') = strongPool p ++ [obj]
      /\ fst (get_numStrongPooledRefs w')
         = Normal (JsArray.length (strongPool p) + 1)
      /\ weakPool (pool w') = weakPool p
      /\ fst (get_numWeakPooledRefs w') = fst (get_numWeakPooledRefs w))
  /\ (~ JsArray.length (strongPool p) < maxStrongPoolSize p ->
      weakPool (pool w') = JsSet.add WeakRef_eqb (weakPool p) (getWeakRef obj)
      /\ In (getWeakRef obj) (weakPool (pool w'))
      /\ strongPool (pool w') = strongPool p
      /\ fst (get_numStrongPooledRefs w') = fst (get_numStrongPooledRefs w)).
Proof.
  cbv zeta. rewrite release_normal. cbn [fst snd].
  pose proof (release_untrack_frame obj w) as (_ & Hp & _). cbv zeta in Hp.
  pose proof (release_store_spec obj (snd (release_untrack obj w))) as (Hsw & _).
  cbv zeta in Hsw. rewrite Hp in Hsw. cbn in Hsw.
  unfold get_numStrongPooledRefs, get_numWeakPooledRefs, strongPool_length,
    weakPool_size, read. cbn [fst].
  split; [reflexivity|].
  destruct (JsArray.length (strongPool (pool w)) <? maxStrongPoolSize (pool w)) eqn:E;
    destruct Hsw as [Hs Hw]; rewrite Hs, Hw.
  - apply Z.ltb_lt in E. split; [|intros; lia].
    intros _. rewrite length_snoc. repeat split.
  - apply Z.ltb_ge in E. split; [intros; lia|].
    intros _. repeat split. apply In_add. now right.
Qed.

Lemma release_stores_by_capacity_witness :
  strongPool (pool (snd (release (Normal tt) 3%nat (constructor (fixedCapacity 5)))))
  = [3%nat]
  /\ In (getWeakRef 6%nat)
        (weakPool (pool (snd (release (Normal tt) 6%nat overflow_world)))).
Proof.
  split.
  - apply (proj1 (proj2 (release_stores_by_capacity 3%nat (constructor (fixedCapacity 5))))).
    vm_compute. reflexivity.
  - apply (proj2 (proj2 (release_stores_by_capacity 6%nat overflow_world))).
    vm_compute. intros H. discriminate H.
Defined.

(** C9. No event lowers [numActiveGC]; no event lowers [numGC] except
    the rescale, which sets it to 0; so along every sequence of events
    [numActiveGC] never decreases, and [numGC] never decreases along a
    sequence without a rescale. A counter that is at
    [Number.MAX_SAFE_INTEGER] when the finalization callback runs stays
    there, and a counter below it does not pass it. *)
Theorem gc_counters_monotone_and_saturating
    (algo : PoolScalingSignature) (w : World) :
  (forall e, numActiveGC (pool w) <= numActiveGC (pool (exec algo e w)))
  /\ (forall e, numGC (pool w) <= numGC (pool (exec algo e w))
                \/ (e = EvTimer /\ numGC (pool (exec algo e w)) = 0))
  /\ (forall es, numActiveGC (pool w) <= numActiveGC (pool (run algo es w)))
  /\ (forall es, ~ In EvTimer es -> numGC (pool w) <= numGC (pool (run algo es w)))
  /\ (forall r, numGC (pool w) = MAX_SAFE_INTEGER ->
                numGC (pool (snd (objFinalizer r w))) = MAX_SAFE_INTEGER)
  /\ (forall r, numActiveGC (pool w) = MAX_SAFE_INTEGER ->
                numActiveGC (pool (snd (objFinalizer r w))) = MAX_SAFE_INTEGER)
  /\ (forall r, numGC (pool w) <= MAX_SAFE_INTEGER ->
                numGC (pool (snd (objFinalizer r w))) <= MAX_SAFE_INTEGER)
  /\ (forall r, numActiveGC (pool w) <= MAX_SAFE_INTEGER ->
                numActiveGC (pool (snd (objFinalizer r w))) <= MAX_SAFE_INTEGER).
Proof.
  split; [intros e; apply exec_numActiveGC|].
  split; [intros e; apply exec_numGC|].
  split; [intros es; apply run_numActiveGC|].
  split; [intros es; apply run_numGC|].
  assert (Hfin : forall r,
             (numGC (pool w) = MAX_SAFE_INTEGER ->
              numGC (pool (snd (objFinalizer r w))) = MAX_SAFE_INTEGER)
             /\ (numActiveGC (pool w) = MAX_SAFE_INTEGER ->
                 numActiveGC (pool (snd (objFinalizer r w))) = MAX_SAFE_INTEGER)
             /\ (numGC (pool w) <= MAX_SAFE_INTEGER ->
                 numGC (pool (snd (objFinalizer r w))) <= MAX_SAFE_INTEGER)
             /\ (numActiveGC (pool w) <= MAX_SAFE_INTEGER ->
                 numActiveGC (pool (snd (objFinalizer r w))) <= MAX_SAFE_INTEGER)).
  { intros r.
    pose proof (objFinalizer_spec r w) as (_ & _ & _ & _ & _ & _ & H).
    cbv zeta in H.
    destruct (JsSet.has WeakRef_eqb (weakPool (pool w)) r).
    - destruct H as (_ & Hag & Hg). rewrite Hag, Hg.
      destruct (numGC (pool w) =? MAX_SAFE_INTEGER) eqn:E;
        [apply Z.eqb_eq in E | apply Z.eqb_neq in E]; repeat split; intros; lia.
    - destruct H as (_ & Hg & Hag). rewrite Hag, Hg.
      destruct (JsSet.has WeakRef_eqb (activeObjects (pool w)) r);
        [|repeat split; intros; lia].
      destruct (numActiveGC (pool w) =? MAX_SAFE_INTEGER) eqn:E;
        [apply Z.eqb_eq in E | apply Z.eqb_neq in E]; repeat split; intros; lia. }
  repeat split; intros r; apply (Hfin r).
Qed.

Lemma gc_counters_monotone_and_saturating_witness :
  numGC (pool (snd (objFinalizer (getWeakRef 5%nat)
                      (mkWorld (with_numGC MAX_SAFE_INTEGER (pool overflow_world))
                               (host overflow_world)))))
  = MAX_SAFE_INTEGER
  /\ numGC (pool overflow_world)
     <= numGC (pool (run (fixedCapacity 5)
                       [EvReclaim 5%nat; EvFinalize (getWeakRef 5%nat)]
                       overflow_world)).
Proof.
  split.
  - pose proof (gc_counters_monotone_and_saturating (fixedCapacity 5)
                  (mkWorld (with_numGC MAX_SAFE_INTEGER (pool overflow_world))
                           (host overflow_world)))
      as (_ & _ & _ & _ & Hsat & _).
    exact (Hsat (getWeakRef 5%nat) eq_refl).
  - pose proof (gc_counters_monotone_and_saturating (fixedCapacity 5) overflow_world)
      as (_ & _ & _ & Hrun & _).
    apply Hrun. intros [H|[H|[]]]; discriminate H.
Defined.

(** C10. The three queries and the five statistics return their value
    and leave the world, hence every field of the pool, as it was. *)
Theorem queries_leave_the_pool_unchanged (obj : Obj) (w : World) :
  snd (isActive obj w) = w
  /\ snd (isStrongPooled obj w) = w
  /\ snd (isWeakPooled obj w) = w
  /\ snd (get_numActiveObjects w) = w
  /\ snd (get_curMaxStrongPoolSize w) = w
  /\ snd (get_numStrongPooledRefs w) = w
  /\ snd (get_numWeakPooledRefs w) = w
  /\ snd (get_numGC w) = w.
Proof. repeat split. Qed.

End WeakPoolFacts.

(* ===================================================================== *)
(** * Further properties of the pool *)
(* ===================================================================== *)

Module WeakPoolMoreFacts.

Import WeakPool WeakPoolFacts WeakPoolUtils WeakPoolStates.
Local Open Scope Z_scope.

#[local] Arguments JsSet.has : simpl never.
#[local] Arguments JsSet.add : simpl never.
#[local] Arguments JsSet.delete : simpl never.
#[local] Arguments JsSet.size : simpl never.
#[local] Arguments JsArray.pop : simpl never.
#[local] Arguments JsArray.length : simpl never.
#[local] Arguments JsArray.includes : simpl never.
#[local] Arguments Z.ltb : simpl never.
#[local] Arguments Z.eqb : simpl never.
#[local] Arguments Nat.eq_dec : simpl never.
#[local] Arguments release_untrack : simpl never.
#[local] Arguments release_store : simpl never.
#[local] Arguments release : simpl never.
#[local] Arguments acquire : simpl never.
#[local] Arguments updatePoolSize : simpl never.
#[local] Arguments objFinalizer : simpl never.
#[local] Arguments WeakRef_eq_dec : simpl never.

(** *** Where the contents of the pools come from *)

Lemma acquire_backfill_members (it : list WeakRef) (w : World) :
  let w' := snd (acquire_backfill it w) in
  (forall obj, In obj (strongPool (pool w')) ->
     In obj (strongPool (pool w))
     \/ (In (getWeakRef obj) it /\ alive (host w) (getWeakRef obj) = true))
  /\ (forall r, In r (weakPool (pool w')) -> In r (weakPool (pool w)))
  /\ (List.length (strongPool (pool w')) <= S (List.length (strongPool (pool w))))%nat.
Proof.
  revert w. induction it as [|r it IH]; intros w; cbv zeta.
  - cbn. repeat split; auto.
  - cbn [acquire_backfill]. js_unfold. cbn.
    destruct (JsArray.includes (collected (host w)) (target r)) eqn:E; cbn.
    + match goal with
      | |- context [acquire_backfill it ?w'] =>
          destruct (IH w') as (Hs & Hw & Hl)
      end.
      cbn in Hs, Hw, Hl. repeat split.
      * intros obj H. destruct (Hs obj H) as [H'|[H' Ha]]; [now left|].
        right. split; [now right | exact Ha].
      * intros x H. apply Hw in H. apply In_delete in H. tauto.
      * exact Hl.
    + repeat split.
      * intros obj H. apply in_app_or in H. destruct H as [H|[<-|[]]]; [now left|].
        right. rewrite getWeakRef_target. split; [now left|].
        unfold alive. now rewrite E.
      * intros x H. apply In_delete in H. tauto.
      * rewrite length_app. cbn. lia.
Qed.

Lemma updatePoolSize_grow_members (it : list WeakRef) (w : World) :
  let w' := snd (updatePoolSize_grow it w) in
  (forall obj, In obj (strongPool (pool w')) ->
     In obj (strongPool (pool w))
     \/ (In (getWeakRef obj) it /\ alive (host w) (getWeakRef obj) = true))
  /\ (forall r, In r (weakPool (pool w')) -> In r (weakPool (pool w))).
Proof.
  revert w. induction it as [|r it IH]; intros w; cbv zeta.
  - cbn. repeat split; auto.
  - cbn [updatePoolSize_grow]. js_unfold. cbn.
    destruct (JsArray.includes (collected (host w)) (target r)) eqn:E; cbn.
    + match goal with
      | |- context [updatePoolSize_grow it ?w'] =>
          destruct (IH w') as (Hs & Hw)
      end.
      cbn in Hs, Hw. split.
      * intros obj H. destruct (Hs obj H) as [H'|[H' Ha]]; [now left|].
        right. split; [now right | exact Ha].
      * intros x H. apply Hw in H. apply In_delete in H. tauto.
    + assert (Hnew : forall obj, In obj (strongPool (pool w) ++ [target r]) ->
                 In obj (strongPool (pool w))
                 \/ (In (getWeakRef obj) (r :: it) /\ alive (host w) (getWeakRef obj) = true)).
      { intros obj H. apply in_app_or in H. destruct H as [H|[<-|[]]]; [now left|].
        right. rewrite getWeakRef_target. split; [now left|].
        unfold alive. now rewrite E. }
      js_case.
      * split; [exact Hnew|]. intros x H. apply In_delete in H. tauto.
      * match goal with
        | |- context [updatePoolSize_grow it ?w'] =>
            destruct (IH w') as (Hs & Hw)
        end.
        cbn in Hs, Hw. split.
        -- intros obj H. destruct (Hs obj H) as [H'|[H' Ha]]; [now apply Hnew|].
           right. split; [now right | exact Ha].
        -- intros x H. apply Hw in H. apply In_delete in H. tauto.
Qed.

Lemma updatePoolSize_shrink_members (rounds : nat) (w : World) :
  let w' := snd (updatePoolSize_shrink rounds w) in
  (forall obj, In obj (strongPool (pool w')) -> In obj (strongPool (pool w)))
  /\ (forall r, In r (weakPool (pool w')) ->
        In r (weakPool (pool w)) \/ In (target r) (strongPool (pool w))).
Proof.
  revert w. induction rounds as [|rounds IH]; intros w; cbv zeta.
  - cbn. split; auto.
  - cbn [updatePoolSize_shrink]. js_unfold. cbn.
    destruct (array_cases (strongPool (pool w))) as [E | (a & x & E)]; rewrite E.
    + rewrite pop_nil. cbn. split; auto.
    + rewrite pop_snoc. cbn.
      assert (Hadd : forall r, In r (JsSet.add WeakRef_eqb (weakPool (pool w)) (getWeakRef x)) ->
                In r (weakPool (pool w)) \/ In (target r) (a ++ [x])).
      { intros r H. apply In_add in H. destruct H as [H| ->]; [now left|].
        right. cbn. apply in_or_app. right. now left. }
      js_case.
      * match goal with
        | |- context [updatePoolSize_shrink rounds ?w'] =>
            destruct (IH w') as (Hs & Hw)
        end.
        cbn in Hs, Hw. split.
        -- intros obj H. apply in_or_app. left. now apply Hs.
        -- intros r H. destruct (Hw r H) as [H'|H']; [now apply Hadd|].
           right. apply in_or_app. now left.
      * split; [intros obj H; apply in_or_app; now left | exact Hadd].
Qed.

Lemma updatePoolSize_members (algo : PoolScalingSignature) (w : World) :
  let w' := snd (updatePoolSize algo w) in
  (forall obj, In obj (strongPool (pool w')) ->
     In obj (strongPool (pool w))
     \/ (In (getWeakRef obj) (weakPool (pool w))
         /\ alive (host w) (getWeakRef obj) = true))
  /\ (forall r, In r (weakPool (pool w')) ->
        In r (weakPool (pool w)) \/ In (target r) (strongPool (pool w))).
Proof.
  cbv zeta. rewrite updatePoolSize_unfold. cbv zeta.
  set (newMax := algo _ _ _ _ _).
  set (w1 := mkWorld (with_maxStrongPoolSize newMax (pool w)) (host w)).
  destruct (newMax <? JsArray.length (strongPool (pool w))).
  - pose proof (updatePoolSize_shrink_members (S (List.length (strongPool (pool w)))) w1)
      as (Hs & Hw).
    cbv zeta in Hs, Hw.
    destruct (updatePoolSize_shrink _ w1) as [[[]|e] w2]; cbn in *;
      (split; [intros obj H; left; now apply Hs | exact Hw]).
  - destruct ((_ <? _) && (_ <? _)).
    + pose proof (updatePoolSize_grow_members (weakPool (pool w)) w1) as (Hs & Hw).
      pose proof (updatePoolSize_grow_frame (weakPool (pool w)) w1) as (Hn & _).
      cbv zeta in Hs, Hw.
      destruct (updatePoolSize_grow _ w1) as [c w2]. cbn in Hn. subst c. cbn in *.
      split; [exact Hs | intros r H; left; now apply Hw].
    + cbn. split; intros; now left.
Qed.

(** Whatever the pool holds after an event, it held before or the event
    brought in. *)
Lemma exec_holds (algo : PoolScalingSignature) (e : Event) (w : World) (obj : Obj) :
  holds (pool (exec algo e w)) obj -> holds (pool w) obj \/ brings e w obj.
Proof.
  unfold holds.
  destruct e as [created|resetting o| |o|r]; cbn [exec brings].
  - destruct (array_cases (strongPool (pool w))) as [E | (a & x & E)].
    + js_unfold. cbn. rewrite E, pop_nil. cbn.
      destruct created as [c|x]; cbn; rewrite ?E.
      * intros [H|[H|H]]; [contradiction | left; tauto |].
        apply In_add in H. destruct H as [H|H]; [left; tauto|].
        right. split; [reflexivity | now apply getWeakRef_inj].
      * intros [H|[H|H]]; [contradiction | left; tauto | left; tauto].
    + rewrite (acquire_nonempty _ _ _ _ E). cbn.
      match goal with
      | |- context [acquire_backfill ?it ?w'] =>
          pose proof (acquire_backfill_members it w') as (Hs & Hw & _);
          pose proof (acquire_backfill_frame it w') as (_ & _ & Ha & _)
      end.
      cbv zeta in Hs, Hw. cbn in Hs, Hw, Ha. rewrite Ha, E.
      intros [H|[H|H]]; left.
      * destruct (Hs obj H) as [H'|[H' _]]; [left; apply in_or_app; now left | tauto].
      * right. left. now apply Hw.
      * apply In_add in H. destruct H as [H|H]; [tauto|].
        apply getWeakRef_inj in H. subst. left. apply in_or_app. right. now left.
  - intros H.
    pose proof (release_untrack_frame o w) as (_ & Hp & _). cbv zeta in Hp.
    destruct (Nat.eq_dec obj o) as [->|Hne]; [now right|]. left.
    assert (Hact : In (getWeakRef obj)
                      (JsSet.delete WeakRef_eqb (activeObjects (pool w)) (getWeakRef o)) ->
                   In (getWeakRef obj) (activeObjects (pool w)))
      by (intros Hd; apply In_delete in Hd; tauto).
    destruct resetting as [[]|x].
    + rewrite release_normal in H. cbn [snd] in H.
      pose proof (release_store_spec o (snd (release_untrack o w))) as (Hsw & Ha & _).
      cbv zeta in Hsw, Ha. rewrite Hp in Hsw, Ha. cbn in Hsw, Ha. rewrite Ha in H.
      destruct (JsArray.length (strongPool (pool w)) <? maxStrongPoolSize (pool w));
        destruct Hsw as [Hs Hw]; rewrite Hs, Hw in H;
        destruct H as [H|[H|H]]; auto.
      * apply in_app_or in H. destruct H as [H|[H|[]]]; [tauto | congruence].
      * apply In_add in H. destruct H as [H|H]; [tauto|].
        apply getWeakRef_inj in H. congruence.
    + rewrite release_throw in H. cbn [snd] in H. rewrite Hp in H. cbn in H.
      destruct H as [H|[H|H]]; auto.
  - rewrite run_timer_unfold. intros H. left.
    match goal with
    | H : context [updatePoolSize algo ?w'] |- _ =>
        pose proof (updatePoolSize_members algo w') as (Hs & Hw);
        pose proof (updatePoolSize_frame algo w') as (_ & Ha & _)
    end.
    cbv zeta in Hs, Hw, Ha. cbn [pool host] in Hs, Hw, Ha. rewrite Ha in H.
    destruct H as [H|[H|H]]; [| |tauto].
    + destruct (Hs obj H) as [H'|[H' _]]; tauto.
    + destruct (Hw _ H) as [H'|H']; [tauto|]. left. exact H'.
  - cbn. tauto.
  - pose proof (objFinalizer_spec r w) as (_ & _ & Hs & _ & _ & Hw & Hrest).
    cbv zeta in Hs, Hw, Hrest. rewrite Hs, Hw. intros H. left.
    assert (Ha : In (getWeakRef obj) (activeObjects (pool (snd (objFinalizer r w)))) ->
                 In (getWeakRef obj) (activeObjects (pool w))).
    { destruct (JsSet.has WeakRef_eqb (weakPool (pool w)) r);
        destruct Hrest as (Ha & _); rewrite Ha; [tauto|].
      intros Hd. apply In_delete in Hd. tauto. }
    destruct H as [H|[H|H]]; [tauto | | tauto].
    apply In_delete in H. tauto.
Qed.

(** *** Registration with the [FinalizationRegistry] *)

Lemma release_registry (resetting : completion unit) (obj : Obj) (w : World) :
  registry (host (snd (release resetting obj w)))
  = if JsSet.has WeakRef_eqb (activeObjects (pool w)) (getWeakRef obj)
    then registry (host w)
    else (obj, getWeakRef obj) :: registry (host w).
Proof.
  destruct resetting as [[]|x]; js_unfold; cbn;
    destruct (JsSet.has WeakRef_eqb (activeObjects (pool w)) (getWeakRef obj));
    cbn; repeat js_case; reflexivity.
Qed.

Lemma acquire_registry (created : completion Obj) (w : World) :
  registry (host (snd (acquire created w)))
  = match strongPool (pool w), created with
    | [], Normal obj => (obj, getWeakRef obj) :: registry (host w)
    | _, _ => registry (host w)
    end.
Proof.
  destruct (array_cases (strongPool (pool w))) as [E | (a & x & E)].
  - js_unfold. cbn. rewrite E, pop_nil. cbn. destruct created; reflexivity.
  - rewrite (acquire_nonempty _ _ _ _ E). cbn.
    match goal with
    | |- context [acquire_backfill ?it ?w'] =>
        pose proof (acquire_backfill_frame it w') as (_ & Hh & _)
    end.
    rewrite Hh, E. cbn. destruct a; reflexivity.
Qed.

Lemma exec_registry (algo : PoolScalingSignature) (e : Event) (w : World)
    (x : Obj * WeakRef) :
  In x (registry (host w)) -> In x (registry (host (exec algo e w))).
Proof.
  intros H. destruct e as [created|resetting o| |o|r]; cbn [exec].
  - rewrite acquire_registry.
    destruct (strongPool (pool w)); [destruct created|]; try assumption. now right.
  - rewrite release_registry. js_case; [assumption | now right].
  - rewrite run_timer_unfold.
    match goal with
    | |- context [updatePoolSize algo ?w'] =>
        pose proof (updatePoolSize_frame algo w') as (Hh & _)
    end.
    cbv zeta in Hh. now rewrite Hh.
  - exact H.
  - pose proof (objFinalizer_spec r w) as (_ & Hh & _). cbv zeta in Hh.
    now rewrite Hh.
Qed.

Lemma exec_registered (algo : PoolScalingSignature) (e : Event) (w : World) :
  (forall obj, holds (pool w) obj -> registered (host w) obj) ->
  forall obj, holds (pool (exec algo e w)) obj -> registered (host (exec algo e w)) obj.
Proof.
  intros Hinv obj H. unfold registered.
  destruct (exec_holds algo e w obj H) as [Hold|Hnew].
  - apply exec_registry. now apply Hinv.
  - destruct e as [[c|x]|resetting o| |o|r]; cbn [brings] in Hnew; try contradiction.
    + destruct Hnew as [E ->]. cbn [exec]. rewrite acquire_registry, E. now left.
    + subst o. cbn [exec]. rewrite release_registry.
      destruct (JsSet.has WeakRef_eqb (activeObjects (pool w)) (getWeakRef obj)) eqn:Ea.
      * apply Hinv. right. right. now apply has_In.
      * now left.
Qed.

Lemma run_registered (algo : PoolScalingSignature) (es : list Event) (w : World) :
  (forall obj, holds (pool w) obj -> registered (host w) obj) ->
  forall obj, holds (pool (run algo es w)) obj -> registered (host (run algo es w)) obj.
Proof.
  revert w. induction es as [|e es IH]; intros w Hinv.
  - exact Hinv.
  - rewrite run_cons. apply IH. now apply exec_registered.
Qed.

(** X1. Whatever sequence of events a pool goes through, with or without
    caller discipline, every object it holds in the strong pool, the weak
    pool or the active set has been registered with the
    [FinalizationRegistry] under its own reference. *)
Theorem held_objects_are_registered
    (algo : PoolScalingSignature) (es : list Event) (obj : Obj) :
  holds (pool (run algo es (constructor algo))) obj ->
  registered (host (run algo es (constructor algo))) obj.
Proof.
  apply run_registered. intros o [H|[H|H]]; contradiction.
Qed.

Lemma held_objects_are_registered_witness :
  registered (host overflow_world) 5%nat.
Proof.
  apply (held_objects_are_registered (fixedCapacity 5) overflow_events 5%nat).
  right. left. vm_compute. now left.
Defined.

(** *** The strong pool holds live objects only *)

Lemma exec_strong_members (algo : PoolScalingSignature) (e : Event) (w : World) (obj : Obj) :
  In obj (strongPool (pool (exec algo e w))) ->
  In obj (strongPool (pool w))
  \/ (In (getWeakRef obj) (weakPool (pool w)) /\ alive (host w) (getWeakRef obj) = true)
  \/ (exists resetting, e = EvRelease resetting obj).
Proof.
  destruct e as [created|resetting o| |o|r]; cbn [exec]; intros H.
  - destruct (array_cases (strongPool (pool w))) as [E | (a & x & E)].
    + destruct (acquire_empty created w E) as (_ & _ & Hs & _).
      rewrite Hs in H. contradiction.
    + rewrite (acquire_nonempty _ _ _ _ E) in H. cbn in H.
      match type of H with
      | context [acquire_backfill ?it ?w'] =>
          pose proof (acquire_backfill_members it w') as (Hs & _)
      end.
      cbv zeta in Hs. cbn in Hs. destruct (Hs obj H) as [H'|H'].
      * left. rewrite E. apply in_or_app. now left.
      * right. now left.
  - pose proof (release_untrack_frame o w) as (_ & Hp & _). cbv zeta in Hp.
    destruct resetting as [[]|x].
    + rewrite release_normal in H. cbn [snd] in H.
      pose proof (release_store_spec o (snd (release_untrack o w))) as (Hsw & _).
      cbv zeta in Hsw. rewrite Hp in Hsw. cbn in Hsw.
      destruct (JsArray.length (strongPool (pool w)) <? maxStrongPoolSize (pool w));
        destruct Hsw as [Hs _]; rewrite Hs in H; [|now left].
      apply in_app_or in H. destruct H as [H|[<-|[]]]; [now left|].
      right. right. now exists (Normal tt).
    + rewrite release_throw in H. cbn [snd] in H. rewrite Hp in H. now left.
  - rewrite run_timer_unfold in H.
    match type of H with
    | context [updatePoolSize algo ?w'] =>
        pose proof (updatePoolSize_members algo w') as (Hs & _)
    end.
    cbv zeta in Hs. destruct (Hs obj H) as [H'|H']; [now left | right; now left].
  - now left.
  - pose proof (objFinalizer_spec r w) as (_ & _ & Hs & _). cbv zeta in Hs.
    rewrite Hs in H. now left.
Qed.

Lemma exec_collected (algo : PoolScalingSignature) (e : Event) (w : World) :
  collected (host (exec algo e w))
  = match e with
    | EvReclaim obj => obj :: collected (host w)
    | _ => collected (host w)
    end.
Proof.
  destruct e as [created|resetting o| |o|r]; cbn [exec].
  - now pose proof (acquire_frame created w) as (_ & _ & _ & _ & _ & H).
  - now pose proof (release_spec resetting o w) as (_ & _ & _ & H & _).
  - rewrite run_timer_unfold.
    match goal with
    | |- context [updatePoolSize algo ?w'] =>
        pose proof (updatePoolSize_frame algo w') as (Hh & _)
    end.
    cbv zeta in Hh. now rewrite Hh.
  - reflexivity.
  - pose proof (objFinalizer_spec r w) as (_ & Hh & _). cbv zeta in Hh.
    now rewrite Hh.
Qed.

Lemma reachable_strong_alive (algo : PoolScalingSignature) (w : World) :
  reachable algo w ->
  forall obj, In obj (strongPool (pool w)) ->
              JsArray.includes (collected (host w)) obj = false.
Proof.
  induction 1 as [|w e Hr IH Hen]; intros obj H.
  - contradiction.
  - rewrite exec_collected.
    destruct (exec_strong_members algo e w obj H) as [Hold|[[_ Hlive]|[rs ->]]].
    + specialize (IH obj Hold).
      destruct e as [created|resetting o| |o|r]; try exact IH.
      cbn in Hen. apply negb_true_iff, includes_not_In in Hen.
      apply includes_not_In. intros [->|Hin]; [contradiction|].
      apply includes_not_In in IH. contradiction.
    + unfold alive in Hlive. cbn in Hlive. apply negb_true_iff in Hlive.
      destruct e as [created|resetting o| |o|r]; try exact Hlive.
      cbn in Hen. apply negb_true_iff, includes_not_In in Hen.
      apply includes_not_In. intros [->|Hin]; [contradiction|].
      apply includes_not_In in Hlive. contradiction.
    + cbn in Hen. apply andb_true_iff in Hen. destruct Hen as [_ Hen].
      now apply negb_true_iff in Hen.
Qed.

(** X2. In every reachable state the strong pool holds no reclaimed
    object; so when the strong pool is non-empty, [acquire] returns an
    object that is still there, namely the last one pushed. *)
Theorem acquire_from_pool_returns_live_object
    (algo : PoolScalingSignature) (w : World) (created : completion Obj) :
  reachable algo w ->
  strongPool (pool w) <> [] ->
  exists obj,
    fst (acquire created w) = Normal obj
    /\ JsArray.pop (strongPool (pool w)) = (Some obj, removelast (strongPool (pool w)))
    /\ JsArray.includes (collected (host w)) obj = false
    /\ collected (host (snd (acquire created w))) = collected (host w).
Proof.
  intros Hr Hne.
  destruct (array_cases (strongPool (pool w))) as [E | (a & x & E)]; [contradiction|].
  exists x. rewrite (acquire_nonempty _ _ _ _ E). cbn [fst snd].
  split; [reflexivity|]. split.
  { rewrite E, pop_snoc, removelast_last. reflexivity. }
  split.
  - apply (reachable_strong_alive algo w Hr). rewrite E. apply in_or_app. right. now left.
  - cbn.
    match goal with
    | |- context [acquire_backfill ?it ?w'] =>
        pose proof (acquire_backfill_frame it w') as (_ & Hh & _)
    end.
    now rewrite Hh.
Qed.

Lemma acquire_from_pool_returns_live_object_witness :
  exists obj,
    fst (acquire (Throw TypeError) overflow_world) = Normal obj
    /\ JsArray.includes (collected (host overflow_world)) obj = false.
Proof.
  assert (Hr : reachable (fixedCapacity 5) overflow_world)
    by (apply run_reachable; [constructor | vm_compute; reflexivity]).
  assert (Hne : strongPool (pool overflow_world) <> [])
    by (vm_compute; discriminate).
  destruct (acquire_from_pool_returns_live_object (fixedCapacity 5) overflow_world
              (Throw TypeError) Hr Hne) as (obj & H1 & _ & H2 & _).
  exists obj. split; assumption.
Defined.

(** *** The capacity bounds the strong pool *)

Lemma exec_within_capacity (algo : PoolScalingSignature) (e : Event) (w : World) :
  (forall a c s k g, 0 <= algo a c s k g) ->
  tiers_disjoint (pool w) ->
  JsArray.length (strongPool (pool w)) <= maxStrongPoolSize (pool w) ->
  JsArray.length (strongPool (pool (exec algo e w)))
  <= maxStrongPoolSize (pool (exec algo e w)).
Proof.
  intros Hnn Hinv Hle.
  destruct e as [created|resetting o| |o|r]; cbn [exec].
  - pose proof (acquire_frame created w) as (_ & _ & _ & Hm & _).
    cbv zeta in Hm. rewrite Hm.
    destruct (array_cases (strongPool (pool w))) as [E | (a & x & E)].
    + destruct (acquire_empty created w E) as (_ & _ & Hs & _).
      rewrite Hs. rewrite E in Hle. exact Hle.
    + rewrite (acquire_nonempty _ _ _ _ E). cbn.
      match goal with
      | |- context [acquire_backfill ?it ?w'] =>
          pose proof (acquire_backfill_members it w') as (_ & _ & Hl)
      end.
      cbv zeta in Hl. cbn in Hl. rewrite E, length_snoc in Hle.
      unfold JsArray.length in *. lia.
  - pose proof (release_spec resetting o w) as (_ & _ & Hm & _).
    cbv zeta in Hm. rewrite Hm.
    pose proof (release_untrack_frame o w) as (_ & Hp & _). cbv zeta in Hp.
    destruct resetting as [[]|x].
    + rewrite release_normal. cbn [snd].
      pose proof (release_store_spec o (snd (release_untrack o w))) as (Hsw & _).
      cbv zeta in Hsw. rewrite Hp in Hsw. cbn in Hsw.
      destruct (JsArray.length (strongPool (pool w)) <? maxStrongPoolSize (pool w)) eqn:E;
        destruct Hsw as [Hs _]; rewrite Hs; [|exact Hle].
      apply Z.ltb_lt in E. rewrite length_snoc. lia.
    + rewrite release_throw. cbn [snd]. rewrite Hp. exact Hle.
  - rewrite run_timer_unfold.
    match goal with
    | |- context [updatePoolSize algo ?w'] =>
        destruct (updatePoolSize_spec algo w')
          as (w2 & E & _ & _ & _ & Hm & _ & _ & Hb & _)
    end.
    { apply Hnn. }
    { cbn. now apply NoDup_weakPool. }
    rewrite E. cbn [snd]. rewrite Hm. exact Hb.
  - exact Hle.
  - pose proof (objFinalizer_spec r w) as (_ & _ & Hs & Hm & _). cbv zeta in Hs, Hm.
    now rewrite Hs, Hm.
Qed.

(** X3. With a scaling algorithm that answers non-negative capacities, the
    strong pool is never longer than the current capacity in a reachable
    state: [numStrongPooledRefs <= curMaxStrongPoolSize] holds between any
    two operations, not only after a rescale. *)
Theorem strong_pool_within_capacity (algo : PoolScalingSignature) (w : World) :
  (forall a c s k g, 0 <= algo a c s k g) ->
  reachable algo w ->
  exists n m,
    fst (get_numStrongPooledRefs w) = Normal n
    /\ fst (get_curMaxStrongPoolSize w) = Normal m
    /\ n <= m.
Proof.
  intros Hnn Hr.
  exists (JsArray.length (strongPool (pool w))), (maxStrongPoolSize (pool w)).
  split; [reflexivity|]. split; [reflexivity|].
  induction Hr as [|w e Hr IH Hen].
  - cbn. unfold JsArray.length. cbn. apply Hnn.
  - apply exec_within_capacity; try assumption.
    exact (reachable_tiers_disjoint algo w Hr).
Qed.

Lemma strong_pool_within_capacity_witness :
  exists n m,
    fst (get_numStrongPooledRefs overflow_world) = Normal n
    /\ fst (get_curMaxStrongPoolSize overflow_world) = Normal m
    /\ n <= m.
Proof.
  apply (strong_pool_within_capacity (fixedCapacity 5) overflow_world).
  - intros. unfold fixedCapacity. lia.
  - apply run_reachable; [constructor | vm_compute; reflexivity].
Defined.

(** *** Counting the checked-out objects *)

Lemma size_add_new (s : list WeakRef) (x : WeakRef) :
  JsSet.has WeakRef_eqb s x = false ->
  JsSet.size (JsSet.add WeakRef_eqb s x) = JsSet.size s + 1.
Proof.
  intros H. unfold JsSet.add, JsSet.size. rewrite H, length_app. cbn. lia.
Qed.

Lemma size_delete_member (s : list WeakRef) (x : WeakRef) :
  NoDup s -> In x s ->
  JsSet.size (JsSet.delete WeakRef_eqb s x) = JsSet.size s - 1.
Proof.
  unfold JsSet.size. induction s as [|y s IH]; intros Hnd Hin; [contradiction|].
  inversion Hnd as [|? ? Hy Hs]; subst. destruct Hin as [->|Hin].
  - rewrite (delete_head _ _ Hnd). cbn [List.length]. lia.
  - unfold JsSet.delete in *. cbn [filter].
    destruct (WeakRef_eqb x y) eqn:E.
    + apply WeakRef_eqb_eq in E. subst. contradiction.
    + cbn [negb List.length]. specialize (IH Hs Hin). lia.
Qed.

Lemma NoDup_activeObjects (p : Pool) : tiers_disjoint p -> NoDup (activeObjects p).
Proof.
  intros H. apply (NoDup_count_occ WeakRef_eq_dec). intros r.
  specialize (H (target r)). unfold occurrences in H.
  rewrite getWeakRef_target in H. lia.
Qed.

(** X4. In a reachable state, an [acquire] that returns an object makes
    [numActiveObjects] one larger and the object active; an [acquire] whose
    factory throws leaves it as it was; a [release] of a checked-out object
    makes it one smaller and the object inactive, whether or not [reset]
    throws. *)
Theorem numActiveObjects_counts_checked_out
    (algo : PoolScalingSignature) (w : World) :
  reachable algo w ->
  (forall created obj,
     enabled (EvAcquire created) w = true ->
     fst (acquire created w) = Normal obj ->
     fst (get_numActiveObjects (snd (acquire created w)))
     = Normal (JsSet.size (activeObjects (pool w)) + 1)
     /\ fst (isActive obj (snd (acquire created w))) = Normal true)
  /\ (forall created x,
        fst (acquire created w) = Throw x ->
        fst (get_numActiveObjects (snd (acquire created w)))
        = fst (get_numActiveObjects w))
  /\ (forall resetting obj,
        enabled (EvRelease resetting obj) w = true ->
        fst (get_numActiveObjects (snd (release resetting obj w)))
        = Normal (JsSet.size (activeObjects (pool w)) - 1)
        /\ fst (isActive obj (snd (release resetting obj w))) = Normal false).
Proof.
  intros Hr. pose proof (reachable_tiers_disjoint algo w Hr) as Hinv.
  unfold get_numActiveObjects, isActive, read. cbn [fst].
  split; [|split].
  - intros created obj Hen Hret.
    destruct (array_cases (strongPool (pool w))) as [E | (a & x & E)].
    + destruct (acquire_empty created w E) as (_ & Hc & _).
      rewrite Hc in Hret. subst created.
      cbn in Hen. rewrite E in Hen.
      unfold unknown in Hen. rewrite !andb_true_iff, !negb_true_iff in Hen.
      destruct Hen as [[Ha _] _].
      js_unfold. cbn. rewrite E, pop_nil. cbn.
      split; [now rewrite size_add_new|].
      f_equal. apply has_In, In_add. now right.
    + rewrite (acquire_nonempty _ _ _ _ E) in *. cbn [fst snd] in *.
      injection Hret as <-. cbn.
      match goal with
      | |- context [acquire_backfill ?it ?w'] =>
          pose proof (acquire_backfill_frame it w') as (_ & _ & Ha & _)
      end.
      cbn in Ha. rewrite Ha. split.
      * rewrite size_add_new; [reflexivity|].
        apply has_not_In. intros Hin.
        apply (count_occ_In WeakRef_eq_dec) in Hin.
        specialize (Hinv x). unfold occurrences in Hinv. rewrite E, count_snoc in Hinv.
        destruct (Nat.eq_dec x x); [lia | congruence].
      * f_equal. apply has_In, In_add. now right.
  - intros created x Hthrow.
    destruct (array_cases (strongPool (pool w))) as [E | (a & y & E)].
    + destruct (acquire_empty created w E) as (_ & Hc & _).
      rewrite Hc in Hthrow. subst created.
      js_unfold. cbn. rewrite E, pop_nil. reflexivity.
    + rewrite (acquire_nonempty _ _ _ _ E) in Hthrow. discriminate.
  - intros resetting obj Hen. cbn in Hen. apply andb_true_iff in Hen.
    destruct Hen as [Hact _]. apply has_In in Hact.
    assert (Hp : activeObjects (pool (snd (release resetting obj w)))
                 = JsSet.delete WeakRef_eqb (activeObjects (pool w)) (getWeakRef obj)).
    { pose proof (release_untrack_frame obj w) as (_ & Hp & _). cbv zeta in Hp.
      destruct resetting as [[]|x].
      - rewrite release_normal. cbn [snd].
        pose proof (release_store_spec obj (snd (release_untrack obj w))) as (_ & Ha & _).
        cbv zeta in Ha. rewrite Ha, Hp. reflexivity.
      - rewrite release_throw. cbn [snd]. now rewrite Hp. }
    rewrite Hp. split.
    + f_equal. apply size_delete_member; [now apply NoDup_activeObjects | exact Hact].
    + f_equal. apply has_not_In. intros H. apply In_delete in H. tauto.
Qed.

Lemma numActiveObjects_counts_checked_out_witness :
  fst (get_numActiveObjects (snd (acquire (Throw TypeError) overflow_world)))
  = Normal 1.
Proof.
  assert (Hr : reachable (fixedCapacity 5) overflow_world)
    by (apply run_reachable; [constructor | vm_compute; reflexivity]).
  pose proof (numActiveObjects_counts_checked_out (fixedCapacity 5) overflow_world Hr)
    as (Hacq & _ & _).
  exact (proj1 (Hacq (Throw TypeError) 4%nat eq_refl eq_refl)).
Defined.

(** *** Release, then acquire *)

(** X5. The strong pool is a stack: if [release] finds room in the strong
    pool, the next [acquire] returns the released object and does not call
    the factory, whatever the state of the pool. *)
Theorem released_object_is_reacquired_first
    (created : completion Obj) (obj : Obj) (w : World) :
  JsArray.length (strongPool (pool w)) < maxStrongPoolSize (pool w) ->
  let w1 := snd (release (Normal tt) obj w) in
  fst (acquire created w1) = Normal obj
  /\ factoryCalls (host (snd (acquire created w1))) = factoryCalls (host w)
  /\ fst (isActive obj (snd (acquire created w1))) = Normal true.
Proof.
  intros Hlt. cbv zeta. rewrite release_normal. cbn [snd].
  pose proof (release_untrack_frame obj w) as (_ & Hp & _ & _ & Hf). cbv zeta in Hp, Hf.
  pose proof (release_store_spec obj (snd (release_untrack obj w)))
    as (Hsw & _ & _ & _ & _ & _ & _ & _ & Hf').
  cbv zeta in Hsw, Hf'. rewrite Hp in Hsw. cbn in Hsw.
  apply Z.ltb_lt in Hlt. rewrite Hlt in Hsw. destruct Hsw as [Hs _].
  rewrite (acquire_nonempty _ _ _ _ Hs). cbn [fst snd]. cbn.
  match goal with
  | |- context [acquire_backfill ?it ?w'] =>
      pose proof (acquire_backfill_frame it w') as (_ & Hh & _)
  end.
  cbn in Hh. rewrite Hh, Hf', Hf.
  repeat split. unfold isActive, read. cbn.
  f_equal. apply has_In, In_add. now right.
Qed.

Lemma released_object_is_reacquired_first_witness :
  fst (acquire (Throw TypeError)
         (snd (release (Normal tt) 3%nat (constructor (fixedCapacity 5)))))
  = Normal 3%nat.
Proof.
  apply (released_object_is_reacquired_first (Throw TypeError) 3%nat
           (constructor (fixedCapacity 5))).
  vm_compute. reflexivity.
Defined.

(** *** A callback delivered twice *)






(** *** One rescale is enough *)

Lemma In_fold_add (l s : list WeakRef) (r : WeakRef) :
  In r (fold_left (JsSet.add WeakRef_eqb) l s) <-> In r s \/ In r l.
Proof.
  revert s. induction l as [|x l IH]; intros s; cbn.
  - tauto.
  - rewrite IH, In_add. intuition congruence.
Qed.

(** X7. After a rescale, a second rescale for which the scaling algorithm
    answers the same capacity is a no-op: it moves no object and leaves the
    whole state as it is. *)
Theorem rescale_reaches_a_fixpoint (algo : PoolScalingSignature) (w : World) :
  let stats := fun p : Pool =>
    algo (JsSet.size (activeObjects p)) (maxStrongPoolSize p)
         (JsArray.length (strongPool p)) (JsSet.size (weakPool p)) (numGC p) in
  let w' := snd (updatePoolSize algo w) in
  0 <= stats (pool w) ->
  NoDup (weakPool (pool w)) ->
  stats (pool w') = stats (pool w) ->
  updatePoolSize algo w' = (Normal tt, w').
Proof.
  cbv zeta. intros Hnn Hnd Hsame.
  destruct (updatePoolSize_spec algo w Hnn Hnd)
    as (w' & E & _ & _ & _ & Hm & Hg & Hs & Hb & Hlt & Hgt & Heq).
  rewrite E in *. cbn [snd] in *.
  rewrite updatePoolSize_unfold. cbv zeta. rewrite Hsame.
  set (newMax := algo _ _ _ _ _) in *.
  assert (Hdone : JsArray.length (strongPool (pool w')) = newMax
                  \/ weakPool (pool w') = []).
  { destruct (Z.lt_trichotomy newMax (JsArray.length (strongPool (pool w)))) as [H|[H|H]].
    - destruct (Hlt H) as (popped & _ & Hl & _). now left.
    - destruct (Heq (eq_sym H)) as [Hs' _]. left. now rewrite Hs'.
    - destruct (Hgt H) as (visited & rest & _ & Hw' & _ & [Hrest|Hfull]).
      + right. now rewrite Hw', Hrest.
      + now left. }
  assert (Hno1 : (newMax <? JsArray.length (strongPool (pool w'))) = false)
    by (apply Z.ltb_ge; exact Hb).
  assert (Hno2 : (JsArray.length (strongPool (pool w')) <? newMax)
                 && (0 <? JsSet.size (weakPool (pool w'))) = false).
  { apply andb_false_iff. destruct Hdone as [H|H].
    - left. apply Z.ltb_ge. lia.
    - right. rewrite H. reflexivity. }
  rewrite Hno1, Hno2.
  destruct w' as [p' h'], p' as [wk st ac fl g ag mx]. cbn in *. subst. reflexivity.
Qed.

Lemma rescale_reaches_a_fixpoint_witness :
  updatePoolSize (fixedCapacity 2) (snd (updatePoolSize (fixedCapacity 2) overflow_world))
  = (Normal tt, snd (updatePoolSize (fixedCapacity 2) overflow_world)).
Proof.
  pose proof (rescale_reaches_a_fixpoint (fixedCapacity 2) overflow_world) as H.
  cbv zeta in H. apply H.
  - unfold fixedCapacity. lia.
  - vm_compute. repeat constructor. intros [].
  - unfold fixedCapacity. reflexivity.
Defined.

(** X8. A rescale that completes loses no live object: an object that was
    in the strong pool, or whose reference was in the weak pool while the
    object was still there, is in the strong pool or referred to by the
    weak pool afterwards. Only references to reclaimed objects are
    dropped. *)
Theorem rescale_keeps_live_objects
    (algo : PoolScalingSignature) (w : World) (obj : Obj) :
  let p := pool w in
  let p' := pool (snd (updatePoolSize algo w)) in
  0 <= algo (JsSet.size (activeObjects p)) (maxStrongPoolSize p)
            (JsArray.length (strongPool p)) (JsSet.size (weakPool p)) (numGC p) ->
  NoDup (weakPool p) ->
  In obj (strongPool p)
  \/ (In (getWeakRef obj) (weakPool p) /\ alive (host w) (getWeakRef obj) = true) ->
  In obj (strongPool p') \/ In (getWeakRef obj) (weakPool p').
Proof.
  cbv zeta. intros Hnn Hnd Hheld.
  destruct (updatePoolSize_spec algo w Hnn Hnd)
    as (w' & E & _ & _ & _ & _ & _ & _ & _ & Hlt & Hgt & Heq).
  rewrite E. cbn [snd].
  set (newMax := algo _ _ _ _ _) in *.
  destruct (Z.lt_trichotomy newMax (JsArray.length (strongPool (pool w)))) as [H|[H|H]].
  - destruct (Hlt H) as (popped & Hs & _ & Hw). rewrite Hw.
    destruct Hheld as [Hin|[Hin _]].
    + rewrite Hs in Hin. apply in_app_or in Hin. destruct Hin as [Hin|Hin]; [now left|].
      right. apply In_fold_add. right. apply in_map. now apply in_rev in Hin.
    + right. apply In_fold_add. now left.
  - destruct (Heq (eq_sym H)) as [Hs Hw]. rewrite Hs, Hw. tauto.
  - destruct (Hgt H) as (visited & rest & Hw & Hw' & Hs & _). rewrite Hs, Hw'.
    destruct Hheld as [Hin|[Hin Hal]].
    + left. apply in_or_app. now left.
    + rewrite Hw in Hin. apply in_app_or in Hin. destruct Hin as [Hin|Hin]; [|now right].
      left. apply in_or_app. right.
      change obj with (target (getWeakRef obj)). apply in_map.
      apply filter_In. split; assumption.
Qed.

Lemma rescale_keeps_live_objects_witness :
  In 4%nat (strongPool (pool (snd (updatePoolSize (fixedCapacity 2) overflow_world))))
  \/ In (getWeakRef 4%nat)
        (weakPool (pool (snd (updatePoolSize (fixedCapacity 2) overflow_world)))).
Proof.
  pose proof (rescale_keeps_live_objects (fixedCapacity 2) overflow_world 4%nat) as H.
  cbv zeta in H. apply H.
  - unfold fixedCapacity. lia.
  - vm_compute. repeat constructor. intros [].
  - left. vm_compute. tauto.
Defined.

(** *** The helpers of the test suite *)

Lemma release_closed (obj : Obj) (w : World) :
  let p := pool w in
  let w' := snd (release (Normal tt) obj w) in
  let room := JsArray.length (strongPool p) <? maxStrongPoolSize p in
  strongPool (pool w') = (if room then strongPool p ++ [obj] else strongPool p)
  /\ weakPool (pool w')
     = (if room then weakPool p
        else JsSet.add WeakRef_eqb (weakPool p) (getWeakRef obj))
  /\ activeObjects (pool w')
     = JsSet.delete WeakRef_eqb (activeObjects p) (getWeakRef obj)
  /\ maxStrongPoolSize (pool w') = maxStrongPoolSize p.
Proof.
  cbv zeta. rewrite release_normal. cbn [snd].
  pose proof (release_untrack_frame obj w) as (_ & Hp & _). cbv zeta in Hp.
  pose proof (release_store_spec obj (snd (release_untrack obj w)))
    as (Hsw & Ha & _ & _ & Hm & _).
  cbv zeta in Hsw, Ha, Hm. rewrite Hp in Hsw, Ha, Hm. cbn in Hsw, Ha, Hm.
  rewrite Ha, Hm.
  destruct (JsArray.length (strongPool (pool w)) <? maxStrongPoolSize (pool w));
    destruct Hsw as [Hs Hw]; rewrite Hs, Hw; repeat split.
Qed.

Lemma releaseAll_fills_strong_then_weak_aux (objs : list Obj) (w : World) :
  let p := pool w in
  let p' := pool (releaseAll objs w) in
  let room := Z.to_nat (maxStrongPoolSize p - JsArray.length (strongPool p)) in
  strongPool p' = strongPool p ++ firstn room objs
  /\ weakPool p'
     = fold_left (JsSet.add WeakRef_eqb) (map getWeakRef (skipn room objs)) (weakPool p)
  /\ activeObjects p'
     = fold_left (JsSet.delete WeakRef_eqb) (map getWeakRef objs) (activeObjects p)
  /\ maxStrongPoolSize p' = maxStrongPoolSize p.
Proof.
  cbv zeta. revert w. induction objs as [|obj objs IH]; intros w.
  - cbn. rewrite firstn_nil, skipn_nil, app_nil_r. repeat split.
  - change (releaseAll (obj :: objs) w)
      with (releaseAll objs (snd (release (Normal tt) obj w))).
    destruct (IH (snd (release (Normal tt) obj w))) as (Hs & Hw & Ha & Hm).
    destruct (release_closed obj w) as (Hs1 & Hw1 & Ha1 & Hm1). cbv zeta in *.
    rewrite Hs, Hw, Ha, Hm, Hs1, Hw1, Ha1, Hm1. clear Hs Hw Ha Hm Hs1 Hw1 Ha1 Hm1 IH.
    destruct (JsArray.length (strongPool (pool w)) <? maxStrongPoolSize (pool w)) eqn:E.
    + apply Z.ltb_lt in E. rewrite length_snoc.
      replace (Z.to_nat (maxStrongPoolSize (pool w) - JsArray.length (strongPool (pool w))))
        with (S (Z.to_nat (maxStrongPoolSize (pool w)
                           - (JsArray.length (strongPool (pool w)) + 1)))) by lia.
      cbn [firstn skipn map fold_left]. rewrite <- app_assoc. repeat split.
    + apply Z.ltb_ge in E.
      replace (Z.to_nat (maxStrongPoolSize (pool w) - JsArray.length (strongPool (pool w))))
        with O by lia.
      cbn [firstn skipn map fold_left]. rewrite app_nil_r. repeat split.
Qed.

(** X9. [releaseAll] fills the strong pool first: of the released objects,
    as many as the strong pool has room for are pushed on it, in order, and
    the references of all the others are added to the weak pool; every one
    of them leaves the active set. *)
Theorem releaseAll_fills_strong_then_weak (objs : list Obj) (w : World) :
  let p := pool w in
  let p' := pool (releaseAll objs w) in
  let room := Z.to_nat (maxStrongPoolSize p - JsArray.length (strongPool p)) in
  strongPool p' = strongPool p ++ firstn room objs
  /\ weakPool p'
     = fold_left (JsSet.add WeakRef_eqb) (map getWeakRef (skipn room objs)) (weakPool p)
  /\ activeObjects p'
     = fold_left (JsSet.delete WeakRef_eqb) (map getWeakRef objs) (activeObjects p)
  /\ maxStrongPoolSize p' = maxStrongPoolSize p.
Proof. exact (releaseAll_fills_strong_then_weak_aux objs w). Qed.

Lemma NoDup_map_injective {A B} (g : A -> B) (l : list A) :
  (forall x y, g x = g y -> x = y) -> NoDup l -> NoDup (map g l).
Proof.
  intros Hinj. induction 1 as [|x l Hx Hl IH]; cbn; constructor; [|exact IH].
  intros Hin. apply in_map_iff in Hin. destruct Hin as (y & Hy & Hin).
  apply Hinj in Hy. now subst.
Qed.

Lemma fold_add_fresh (l s : list WeakRef) :
  NoDup (s ++ l) -> fold_left (JsSet.add WeakRef_eqb) l s = s ++ l.
Proof.
  revert s. induction l as [|x l IH]; intros s Hnd; cbn.
  - now rewrite app_nil_r.
  - assert (Hx : JsSet.has WeakRef_eqb s x = false).
    { apply has_not_In. intros Hin. apply NoDup_remove_2 in Hnd.
      apply Hnd. apply in_or_app. now left. }
    unfold JsSet.add at 2. rewrite Hx.
    rewrite IH; rewrite <- app_assoc; [reflexivity | exact Hnd].
Qed.

Lemma fold_delete_all (l s : list WeakRef) :
  (forall r, In r s -> In r l) ->
  fold_left (JsSet.delete WeakRef_eqb) l s = [].
Proof.
  revert s. induction l as [|x l IH]; intros s Hsub; cbn.
  - destruct s as [|r s]; [reflexivity|]. destruct (Hsub r (or_introl eq_refl)).
  - apply IH. intros r Hr. apply In_delete in Hr. destruct Hr as [Hr Hne].
    destruct (Hsub r Hr) as [->|H]; [congruence | exact H].
Qed.

Lemma acquireN_loop_creates
    (f : nat -> Obj) (num : nat) :
  forall (i : nat) (objs : list Obj) (w : World),
    strongPool (pool w) = [] ->
    exists w',
      acquireN_loop num i (fun k => Normal (f k)) objs w
      = (Normal (objs ++ map f (seq i num)), w')
      /\ strongPool (pool w') = []
      /\ weakPool (pool w') = weakPool (pool w)
      /\ activeObjects (pool w')
         = fold_left (JsSet.add WeakRef_eqb)
                     (map getWeakRef (map f (seq i num))) (activeObjects (pool w))
      /\ maxStrongPoolSize (pool w') = maxStrongPoolSize (pool w)
      /\ factoryCalls (host w') = (factoryCalls (host w) + num)%nat.
Proof.
  induction num as [|num IH]; intros i objs w E.
  - exists w. cbn. rewrite app_nil_r, Nat.add_0_r. repeat split. exact E.
  - cbn [acquireN_loop]. unfold bind at 1.
    assert (Hacq : acquire (Normal (f i)) w
                   = (Normal (f i),
                      mkWorld (with_activeObjects
                                 (JsSet.add WeakRef_eqb (activeObjects (pool w))
                                            (getWeakRef (f i)))
                                 (pool w))
                              (mkHost (collected (host w))
                                      ((f i, getWeakRef (f i)) :: registry (host w))
                                      (timers (host w)) (S (factoryCalls (host w)))))).
    { js_unfold. cbn. rewrite E, pop_nil. cbn.
      destruct w as [p h], p. cbn in *. subst. reflexivity. }
    rewrite Hacq.
    match goal with
    | |- context [acquireN_loop num (S i) _ _ ?w1] =>
        destruct (IH (S i) (objs ++ [f i]) w1 E)
          as (w' & Hrun & Hs & Hw & Ha & Hm & Hf)
    end.
    exists w'. cbn in Hw, Ha, Hm, Hf. rewrite Hrun, <- app_assoc. cbn.
    repeat split; try assumption. lia.
Qed.

(** X10. [releaseAll(acquireN(n, pool), pool)] on a new pool, with a
    factory that returns a new object at every call and never throws:
    [acquireN] calls the factory [n] times and returns the [n] objects in
    order; after [releaseAll] the first [capacity] of them are the strong
    pool, the references of the others are the weak pool, in order, and
    nothing is checked out. *)
Theorem acquireN_then_releaseAll
    (algo : PoolScalingSignature) (f : nat -> Obj) (n : nat) :
  (forall i j, f i = f j -> i = j) ->
  let objs := map f (seq 0 n) in
  let capacity := Z.to_nat (algo 0 0 0 0 0) in
  exists w1,
    acquireN n (fun i => Normal (f i)) (constructor algo) = (Normal objs, w1)
    /\ factoryCalls (host w1) = n
    /\ fst (get_numActiveObjects w1) = Normal (Z.of_nat n)
    /\ strongPool (pool (releaseAll objs w1)) = firstn capacity objs
    /\ weakPool (pool (releaseAll objs w1)) = map getWeakRef (skipn capacity objs)
    /\ activeObjects (pool (releaseAll objs w1)) = [].
Proof.
  intros Hinj. cbv zeta.
  assert (Hnd : NoDup (map getWeakRef (map f (seq 0 n)))).
  { rewrite map_map. apply NoDup_map_injective; [|apply seq_NoDup].
    intros i j H. apply Hinj. now apply getWeakRef_inj. }
  destruct (acquireN_loop_creates f n 0 [] (constructor algo) eq_refl)
    as (w1 & Hrun & Hs & Hw & Ha & Hm & Hf).
  exists w1. cbn in Hrun, Hw, Ha, Hm, Hf.
  rewrite (fold_add_fresh _ [] Hnd) in Ha. cbn in Ha.
  destruct (releaseAll_fills_strong_then_weak_aux (map f (seq 0 n)) w1)
    as (Hs' & Hw' & Ha' & _).
  rewrite Hs', Hw', Ha', Hs, Hw, Ha, Hm.
  unfold JsArray.length. cbn [List.length app]. rewrite Z.sub_0_r.
  split; [exact Hrun|]. split; [exact Hf|]. split.
  { unfold get_numActiveObjects, read. cbn. rewrite Ha. unfold JsSet.size.
    now rewrite !length_map, length_seq. }
  split; [reflexivity|]. split.
  - apply (fold_add_fresh _ []). cbn.
    rewrite <- (firstn_skipn (Z.to_nat (algo 0 0 0 0 0)) (map f (seq 0 n))), map_app in Hnd.
    now apply NoDup_app_remove_l in Hnd.
  - apply fold_delete_all. auto.
Qed.

(** *** What [acquire] does to the weak pool *)

Lemma acquire_backfill_closed (it : list WeakRef) :
  forall w : World,
    NoDup it ->
    weakPool (pool w) = it ->
    let w' := snd (acquire_backfill it w) in
    (exists dead r rest,
        it = dead ++ r :: rest
        /\ (forall d, In d dead -> alive (host w) d = false)
        /\ alive (host w) r = true
        /\ strongPool (pool w') = strongPool (pool w) ++ [target r]
        /\ weakPool (pool w') = rest)
    \/ ((forall d, In d it -> alive (host w) d = false)
        /\ strongPool (pool w') = strongPool (pool w)
        /\ weakPool (pool w') = []).
Proof.
  induction it as [|r it IH]; intros w Hnd Hw; cbv zeta.
  - right. cbn. repeat split; [intros d [] | exact Hw].
  - cbn [acquire_backfill]. js_unfold. cbn.
    rewrite Hw, (delete_head _ _ Hnd).
    destruct (JsArray.includes (collected (host w)) (target r)) eqn:E; cbn.
    + assert (Hdead : alive (host w) r = false) by (unfold alive; now rewrite E).
      match goal with
      | |- context [acquire_backfill it ?w1] =>
          destruct (IH w1 ltac:(now inversion Hnd) eq_refl) as [H|H]
      end; cbv zeta in H; cbn in H.
      * destruct H as (dead & x & rest & -> & Hd & Hx & Hs & Hw').
        left. exists (r :: dead), x, rest. repeat split; try assumption.
        intros d [<-|Hin]; [exact Hdead | now apply Hd].
      * destruct H as (Hd & Hs & Hw'). right. repeat split; try assumption.
        intros d [<-|Hin]; [exact Hdead | now apply Hd].
    + left. exists [], r, it. repeat split.
      * intros d [].
      * unfold alive. now rewrite E.
Qed.

(** X14. When the strong pool is non-empty and the weak pool is a set,
    [acquire] returns the top of the strong pool and then refills from the
    weak pool: the references before the first live one are reclaimed and
    are dropped, the first live one is removed and its object pushed on the
    strong pool, and the references after it stay as they are. If no
    reference is live, the weak pool ends empty. *)
Theorem acquire_promotes_first_live_reference
    (created : completion Obj) (w : World) (below : list Obj) (top : Obj) :
  strongPool (pool w) = below ++ [top] ->
  NoDup (weakPool (pool w)) ->
  let w' := snd (acquire created w) in
  fst (acquire created w) = Normal top
  /\ ((exists dead r rest,
          weakPool (pool w) = dead ++ r :: rest
          /\ (forall d, In d dead -> alive (host w) d = false)
          /\ alive (host w) r = true
          /\ strongPool (pool w') = below ++ [target r]
          /\ weakPool (pool w') = rest)
      \/ ((forall d, In d (weakPool (pool w)) -> alive (host w) d = false)
          /\ strongPool (pool w') = below
          /\ weakPool (pool w') = [])).
Proof.
  intros E Hnd. cbv zeta. rewrite (acquire_nonempty _ _ _ _ E). cbn [fst snd].
  split; [reflexivity|]. cbn.
  match goal with
  | |- context [acquire_backfill ?it ?w1] =>
      destruct (acquire_backfill_closed it w1 Hnd eq_refl) as [H|H]
  end; cbv zeta in H; cbn in H; [left | right]; exact H.
Qed.

Lemma acquire_promotes_first_live_reference_witness :
  fst (acquire (Throw TypeError) overflow_world) = Normal 4%nat.
Proof.
  assert (E : strongPool (pool overflow_world) = [0; 1; 2; 3]%nat ++ [4%nat])
    by (vm_compute; reflexivity).
  assert (Hnd : NoDup (weakPool (pool overflow_world)))
    by (vm_compute; repeat constructor; intros []).
  exact (proj1 (acquire_promotes_first_live_reference (Throw TypeError) overflow_world
                  [0; 1; 2; 3]%nat 4%nat E Hnd)).
Defined.

(** *** A double release *)

(** X15. [release] does not check that the object is checked out: released
    twice while the strong pool has room for two and the weak pool is
    empty, the object is in the strong pool twice, and the next two calls
    of [acquire] both return it. *)
Theorem double_release_hands_out_twice
    (c1 c2 : completion Obj) (obj : Obj) (w : World) :
  JsArray.length (strongPool (pool w)) + 1 < maxStrongPoolSize (pool w) ->
  weakPool (pool w) = [] ->
  let w2 := snd (release (Normal tt) obj (snd (release (Normal tt) obj w))) in
  strongPool (pool w2) = strongPool (pool w) ++ [obj; obj]
  /\ fst (acquire c1 w2) = Normal obj
  /\ fst (acquire c2 (snd (acquire c1 w2))) = Normal obj.
Proof.
  intros Hroom Hweak. cbv zeta.
  destruct (release_closed obj w) as (Hs1 & Hw1 & _ & Hm1). cbv zeta in *.
  destruct (release_closed obj (snd (release (Normal tt) obj w))) as (Hs2 & Hw2 & _ & _).
  cbv zeta in *.
  assert (E1 : (JsArray.length (strongPool (pool w)) <? maxStrongPoolSize (pool w)) = true)
    by (apply Z.ltb_lt; lia).
  rewrite E1 in Hs1, Hw1. rewrite Hs1, Hm1, length_snoc in Hs2, Hw2.
  rewrite Hw1 in Hw2.
  assert (E2 : (JsArray.length (strongPool (pool w)) + 1 <? maxStrongPoolSize (pool w)) = true)
    by (apply Z.ltb_lt; lia).
  rewrite E2 in Hs2, Hw2. rewrite <- app_assoc in Hs2. cbn [app] in Hs2.
  split; [exact Hs2|].
  assert (Hs2' : strongPool (pool (snd (release (Normal tt) obj
                                          (snd (release (Normal tt) obj w)))))
                 = (strongPool (pool w) ++ [obj]) ++ [obj])
    by (rewrite Hs2, <- app_assoc; reflexivity).
  rewrite (acquire_nonempty _ _ _ _ Hs2'). cbn [fst snd].
  split; [reflexivity|].
  rewrite Hw2, Hweak. cbn.
  match goal with
  | |- fst (acquire c2 ?w3) = _ =>
      rewrite (acquire_nonempty c2 w3 (strongPool (pool w)) obj eq_refl)
  end.
  reflexivity.
Qed.

Lemma double_release_hands_out_twice_witness :
  fst (acquire (Throw TypeError)
         (snd (acquire (Throw TypeError)
                 (snd (release (Normal tt) 3%nat
                         (snd (release (Normal tt) 3%nat
                                 (constructor (fixedCapacity 5)))))))))
  = Normal 3%nat.
Proof.
  pose proof (double_release_hands_out_twice (Throw TypeError) (Throw TypeError) 3%nat
                (constructor (fixedCapacity 5))) as H.
  cbv zeta in H. apply H.
  - vm_compute. reflexivity.
  - reflexivity.
Defined.

Lemma acquireN_then_releaseAll_witness :
  exists w1,
    acquireN 6 (fun i => Normal i) (constructor (fixedCapacity 5))
    = (Normal (map (fun i : nat => i) (seq 0 6)), w1)
    /\ factoryCalls (host w1) = 6%nat
    /\ fst (get_numActiveObjects w1) = Normal (Z.of_nat 6)
    /\ strongPool (pool (releaseAll (map (fun i : nat => i) (seq 0 6)) w1))
       = firstn (Z.to_nat (fixedCapacity 5 0 0 0 0 0)) (map (fun i : nat => i) (seq 0 6))
    /\ weakPool (pool (releaseAll (map (fun i : nat => i) (seq 0 6)) w1))
       = map getWeakRef
           (skipn (Z.to_nat (fixedCapacity 5 0 0 0 0 0)) (map (fun i : nat => i) (seq 0 6)))
    /\ activeObjects (pool (releaseAll (map (fun i : nat => i) (seq 0 6)) w1)) = [].
Proof.
  exact (acquireN_then_releaseAll (fixedCapacity 5) (fun i : nat => i) 6
           (fun i j H => H)).
Defined.

End WeakPoolMoreFacts.

(* ===================================================================== *)
(** * Properties of the earlier pool *)
(* ===================================================================== *)

Module WeakPoolV1Facts.

Import WeakPool WeakPoolFacts WeakPoolV1.
Local Open Scope Z_scope.

#[local] Arguments JsSet.has : simpl never.
#[local] Arguments JsSet.add : simpl never.
#[local] Arguments JsSet.delete : simpl never.
#[local] Arguments JsSet.size : simpl never.
#[local] Arguments JsArray.pop : simpl never.
#[local] Arguments JsArray.length : simpl never.
#[local] Arguments JsArray.includes : simpl never.
#[local] Arguments Z.ltb : simpl never.
#[local] Arguments Z.eqb : simpl never.
#[local] Arguments Z.max : simpl never.

Ltac v1_unfold :=
  unfold WeakPoolV1.release, WeakPoolV1.acquire, WeakPoolV1.objFinalizer,
    WeakPoolV1.updatePoolSize,
    WeakPoolV1.strongPool_pop, WeakPoolV1.strongPool_push,
    WeakPoolV1.strongPool_length, WeakPoolV1.weakPool_size,
    WeakPoolV1.weakPool_add, WeakPoolV1.weakPool_delete, WeakPoolV1.deref,
    registeredWeakRefs_has, registeredWeakRefs_add,
    WeakPoolV1.objFinalizer_register, WeakPoolV1.setTimeout_updatePoolSize,
    WeakPoolV1.call_create, WeakPoolV1.call_reset,
    WeakPoolV1.get_numActiveObjects, with_host,
    WeakPoolV1.bind, WeakPoolV1.ret, WeakPoolV1.throw,
    WeakPoolV1.read, WeakPoolV1.write,
    WeakPoolV1.with_weakPool, WeakPoolV1.with_strongPool, with_numActiveObjects,
    WeakPoolV1.with_poolSizeUpdateScheduled, WeakPoolV1.with_numGC,
    WeakPoolV1.with_maxStrongPoolSize.

Ltac v1_case :=
  match goal with
  | |- context [if ?c then _ else _] => destruct c eqn:?
  end; cbn.

Lemma same_bookkeeping_refl (w : WeakPoolV1.World) : same_bookkeeping w w.
Proof. unfold same_bookkeeping. tauto. Qed.

Lemma same_bookkeeping_trans (a b c : WeakPoolV1.World) :
  same_bookkeeping a b -> same_bookkeeping b c -> same_bookkeeping a c.
Proof.
  unfold same_bookkeeping. intros (?&?&?) (?&?&?). repeat split; congruence.
Qed.

Ltac v1_loop_step IH loop :=
  match goal with
  | |- context [loop _ ?w'] =>
      eapply same_bookkeeping_trans; [|apply (IH w')];
      unfold same_bookkeeping; cbn; tauto
  end.

Lemma v1_acquire_backfill_frame (it : list WeakRef) (w : WeakPoolV1.World) :
  same_bookkeeping w (snd (WeakPoolV1.acquire_backfill it w)).
Proof.
  revert w. induction it as [|r it IH]; intros w.
  - apply same_bookkeeping_refl.
  - cbn [WeakPoolV1.acquire_backfill]. v1_unfold. cbn. v1_case.
    + v1_loop_step IH WeakPoolV1.acquire_backfill.
    + unfold same_bookkeeping; cbn; tauto.
Qed.

Lemma v1_grow_frame (it : list WeakRef) (w : WeakPoolV1.World) :
  same_bookkeeping w (snd (WeakPoolV1.updatePoolSize_grow it w)).
Proof.
  revert w. induction it as [|r it IH]; intros w.
  - apply same_bookkeeping_refl.
  - cbn [WeakPoolV1.updatePoolSize_grow]. v1_unfold. cbn. v1_case.
    + v1_loop_step IH WeakPoolV1.updatePoolSize_grow.
    + v1_case.
      * unfold same_bookkeeping; cbn; tauto.
      * v1_loop_step IH WeakPoolV1.updatePoolSize_grow.
Qed.

Lemma v1_shrink_frame (rounds : nat) (w : WeakPoolV1.World) :
  same_bookkeeping w (snd (WeakPoolV1.updatePoolSize_shrink rounds w)).
Proof.
  revert w. induction rounds as [|rounds IH]; intros w.
  - apply same_bookkeeping_refl.
  - cbn [WeakPoolV1.updatePoolSize_shrink]. v1_unfold. cbn.
    destruct (array_cases (WeakPoolV1.strongPool (WeakPoolV1.pool w)))
      as [E | (a & x & E)]; rewrite E.
    + rewrite pop_nil. cbn. unfold same_bookkeeping; cbn; tauto.
    + rewrite pop_snoc. cbn. v1_case.
      * v1_loop_step IH WeakPoolV1.updatePoolSize_shrink.
      * unfold same_bookkeeping; cbn; tauto.
Qed.

Lemma v1_updatePoolSize_unfold (algo : PoolScalingSignature) (w : WeakPoolV1.World) :
  let p := WeakPoolV1.pool w in
  let newMax := algo (numActiveObjects p) (WeakPoolV1.maxStrongPoolSize p)
                     (JsArray.length (WeakPoolV1.strongPool p))
                     (JsSet.size (WeakPoolV1.weakPool p)) (WeakPoolV1.numGC p) in
  let w1 := WeakPoolV1.mkWorld (WeakPoolV1.with_maxStrongPoolSize newMax p)
                               (WeakPoolV1.host w) (registeredWeakRefs w) in
  WeakPoolV1.updatePoolSize algo w
  = match (if newMax <? JsArray.length (WeakPoolV1.strongPool p)
           then WeakPoolV1.updatePoolSize_shrink
                  (S (List.length (WeakPoolV1.strongPool p))) w1
           else if (JsArray.length (WeakPoolV1.strongPool p) <? newMax)
                   && (0 <? JsSet.size (WeakPoolV1.weakPool p))
                then WeakPoolV1.updatePoolSize_grow (WeakPoolV1.weakPool p) w1
                else (Normal tt, w1))
    with
    | (Normal _, w2) =>
        (Normal tt,
         WeakPoolV1.mkWorld
           (WeakPoolV1.with_poolSizeUpdateScheduled false
              (WeakPoolV1.with_numGC 0 (WeakPoolV1.pool w2)))
           (WeakPoolV1.host w2) (registeredWeakRefs w2))
    | (Throw e, w2) => (Throw e, w2)
    end.
Proof.
  cbv zeta. unfold WeakPoolV1.updatePoolSize.
  unfold WeakPoolV1.get_numActiveObjects, WeakPoolV1.strongPool_length,
    WeakPoolV1.weakPool_size, WeakPoolV1.bind, WeakPoolV1.ret,
    WeakPoolV1.read, WeakPoolV1.write. cbn.
  destruct (_ <? JsArray.length (WeakPoolV1.strongPool (WeakPoolV1.pool w)));
    [reflexivity|].
  destruct ((_ <? _) && (_ <? _)); reflexivity.
Qed.

Lemma v1_updatePoolSize_frame (algo : PoolScalingSignature) (w : WeakPoolV1.World) :
  same_bookkeeping w (snd (WeakPoolV1.updatePoolSize algo w)).
Proof.
  rewrite v1_updatePoolSize_unfold. cbv zeta.
  set (newMax := algo _ _ _ _ _).
  set (w1 := WeakPoolV1.mkWorld _ _ _).
  assert (H1 : same_bookkeeping w w1) by (unfold same_bookkeeping; cbn; tauto).
  destruct (newMax <? _).
  - pose proof (v1_shrink_frame (S (List.length (WeakPoolV1.strongPool (WeakPoolV1.pool w)))) w1)
      as H.
    destruct (WeakPoolV1.updatePoolSize_shrink _ w1) as [[[]|e] w2];
      unfold same_bookkeeping in *; cbn in *; intuition congruence.
  - destruct ((_ <? _) && (_ <? _)).
    + pose proof (v1_grow_frame (WeakPoolV1.weakPool (WeakPoolV1.pool w)) w1) as H.
      destruct (WeakPoolV1.updatePoolSize_grow _ w1) as [[[]|e] w2];
        unfold same_bookkeeping in *; cbn in *; intuition congruence.
    + unfold same_bookkeeping in *; cbn in *; tauto.
Qed.

Lemma v1_acquire_counter (created : completion Obj) (w : WeakPoolV1.World) :
  numActiveObjects (WeakPoolV1.pool (snd (WeakPoolV1.acquire created w)))
  = numActiveObjects (WeakPoolV1.pool w) + 1
  /\ registry (WeakPoolV1.host (snd (WeakPoolV1.acquire created w)))
     = registry (WeakPoolV1.host w)
  /\ registeredWeakRefs (snd (WeakPoolV1.acquire created w)) = registeredWeakRefs w.
Proof.
  v1_unfold. cbn.
  destruct (array_cases (WeakPoolV1.strongPool (WeakPoolV1.pool w)))
    as [E | (a & x & E)]; rewrite E.
  - rewrite pop_nil. cbn. destruct created; cbn; tauto.
  - rewrite pop_snoc. cbn.
    match goal with
    | |- context [WeakPoolV1.acquire_backfill ?it ?w1] =>
        pose proof (v1_acquire_backfill_frame it w1) as (Hh & Hr & Hn);
        destruct (WeakPoolV1.acquire_backfill it w1) as [[[]|e] w2]
    end; cbn in *; rewrite Hh, Hr, Hn; tauto.
Qed.

Lemma v1_release_counter (resetting : completion unit) (obj : Obj)
    (w : WeakPoolV1.World) :
  numActiveObjects (WeakPoolV1.pool (snd (WeakPoolV1.release resetting obj w)))
  = Z.max (numActiveObjects (WeakPoolV1.pool w) - 1) 0.
Proof.
  v1_unfold. cbn. destruct resetting as [[]|e]; cbn; [|reflexivity].
  repeat v1_case; reflexivity.
Qed.

Lemma v1_exec_counter (algo : PoolScalingSignature) (e : Event) (w : WeakPoolV1.World) :
  numActiveObjects (WeakPoolV1.pool (WeakPoolV1.exec algo e w))
  = match e with
    | EvAcquire _ => numActiveObjects (WeakPoolV1.pool w) + 1
    | EvRelease _ _ => Z.max (numActiveObjects (WeakPoolV1.pool w) - 1) 0
    | _ => numActiveObjects (WeakPoolV1.pool w)
    end.
Proof.
  destruct e as [created|resetting obj| |obj|r]; cbn [WeakPoolV1.exec].
  - apply v1_acquire_counter.
  - apply v1_release_counter.
  - match goal with
    | |- context [WeakPoolV1.updatePoolSize algo ?w1] =>
        pose proof (v1_updatePoolSize_frame algo w1) as (_ & _ & H)
    end.
    rewrite H. reflexivity.
  - reflexivity.
  - v1_unfold. cbn. v1_case; reflexivity.
Qed.

Lemma v1_run_app (algo : PoolScalingSignature) (es es' : list Event)
    (w : WeakPoolV1.World) :
  WeakPoolV1.run algo (es ++ es') w = WeakPoolV1.run algo es' (WeakPoolV1.run algo es w).
Proof. unfold WeakPoolV1.run. apply fold_left_app. Qed.

Lemma v1_acquires_count (algo : PoolScalingSignature) (cs : list (completion Obj))
    (w : WeakPoolV1.World) :
  numActiveObjects (WeakPoolV1.pool (WeakPoolV1.run algo (map EvAcquire cs) w))
  = numActiveObjects (WeakPoolV1.pool w) + Z.of_nat (List.length cs).
Proof.
  revert w. induction cs as [|c cs IH]; intros w.
  - cbn. lia.
  - change (WeakPoolV1.run algo (map EvAcquire (c :: cs)) w)
      with (WeakPoolV1.run algo (map EvAcquire cs) (WeakPoolV1.exec algo (EvAcquire c) w)).
    rewrite IH, v1_exec_counter. cbn [List.length]. lia.
Qed.

Lemma v1_releases_count (algo : PoolScalingSignature)
    (rs : list (completion unit * Obj)) (w : WeakPoolV1.World) :
  0 <= numActiveObjects (WeakPoolV1.pool w) ->
  numActiveObjects
    (WeakPoolV1.pool
       (WeakPoolV1.run algo (map (fun ro => EvRelease (fst ro) (snd ro)) rs) w))
  = Z.max (numActiveObjects (WeakPoolV1.pool w) - Z.of_nat (List.length rs)) 0.
Proof.
  revert w. induction rs as [|r rs IH]; intros w Hn.
  - cbn. lia.
  - change (WeakPoolV1.run algo (map (fun ro => EvRelease (fst ro) (snd ro)) (r :: rs)) w)
      with (WeakPoolV1.run algo (map (fun ro => EvRelease (fst ro) (snd ro)) rs)
              (WeakPoolV1.exec algo (EvRelease (fst r) (snd r)) w)).
    rewrite IH; rewrite v1_exec_counter; cbn [List.length]; lia.
Qed.

(** X11. The earlier pool counts checked-out objects with a counter.
    [acquire] raises it by one before anything else, so also when the
    factory then throws; [release] lowers it by one but not below 0, also
    when [reset] throws; nothing else changes it. Hence [k] acquires
    followed by [j] releases leave it at [n + k - j], or at 0 when more is
    released than was checked out. *)
Theorem v1_numActiveObjects_is_a_clamped_counter
    (algo : PoolScalingSignature) (w : WeakPoolV1.World)
    (cs : list (completion Obj)) (rs : list (completion unit * Obj)) :
  0 <= numActiveObjects (WeakPoolV1.pool w) ->
  (forall e,
     numActiveObjects (WeakPoolV1.pool (WeakPoolV1.exec algo e w))
     = match e with
       | EvAcquire _ => numActiveObjects (WeakPoolV1.pool w) + 1
       | EvRelease _ _ => Z.max (numActiveObjects (WeakPoolV1.pool w) - 1) 0
       | _ => numActiveObjects (WeakPoolV1.pool w)
       end)
  /\ fst (WeakPoolV1.get_numActiveObjects
            (WeakPoolV1.run algo
               (map EvAcquire cs ++ map (fun ro => EvRelease (fst ro) (snd ro)) rs) w))
     = Normal (Z.max (numActiveObjects (WeakPoolV1.pool w)
                      + Z.of_nat (List.length cs) - Z.of_nat (List.length rs)) 0).
Proof.
  intros Hn. split; [intros e; apply v1_exec_counter|].
  unfold WeakPoolV1.get_numActiveObjects, WeakPoolV1.read. cbn [fst].
  rewrite v1_run_app, v1_releases_count; rewrite v1_acquires_count; [f_equal; lia | lia].
Qed.

Lemma v1_numActiveObjects_is_a_clamped_counter_witness :
  fst (WeakPoolV1.get_numActiveObjects
         (WeakPoolV1.run (fixedCapacity 5)
            (map EvAcquire [Normal 1%nat; Throw TypeError]
             ++ map (fun ro => EvRelease (fst ro) (snd ro)) [(Normal tt, 1%nat)])
            (WeakPoolV1.constructor (fixedCapacity 5))))
  = Normal 1.
Proof.
  assert (Hn : 0 <= numActiveObjects (WeakPoolV1.pool (WeakPoolV1.constructor (fixedCapacity 5))))
    by (cbn; lia).
  exact (proj2 (v1_numActiveObjects_is_a_clamped_counter (fixedCapacity 5)
                  (WeakPoolV1.constructor (fixedCapacity 5))
                  [Normal 1%nat; Throw TypeError] [(Normal tt, 1%nat)] Hn)).
Defined.




End WeakPoolV1Facts.

(* ===================================================================== *)
(** * A further property of the default scaling algorithm *)
(* ===================================================================== *)

Module ScalingAlgoMoreFacts.

Import JsNumber ScalingAlgo ScalingAlgoFacts.
Local Open Scope Z_scope.

Lemma spec_at_least_default (a c : Z) : 5 <= spec_defaultPoolScalingAlgo a c.
Proof.
  unfold spec_defaultPoolScalingAlgo.
  destruct (a =? 0); [lia|]. destruct (_ || _); lia.
Qed.

Lemma spec_stable (a c : Z) :
  0 <= a -> 0 <= c ->
  spec_defaultPoolScalingAlgo a (spec_defaultPoolScalingAlgo a c)
  = spec_defaultPoolScalingAlgo a c.
Proof.
  intros Ha Hc. unfold spec_defaultPoolScalingAlgo.
  destruct (a =? 0) eqn:E0; [reflexivity|]. apply Z.eqb_neq in E0.
  destruct ((10 * c <? a) || (a <? 2 * c)) eqn:E.
  - set (m := Z.max ((a + 4) / 5) 5).
    destruct ((10 * m <? a) || (a <? 2 * m)) eqn:E'; [reflexivity|].
    apply Z.max_l. unfold m. lia.
  - apply orb_false_iff in E. destruct E as [E1 E2].
    apply Z.ltb_ge in E1, E2.
    set (m := Z.max c 5).
    destruct ((10 * m <? a) || (a <? 2 * m)) eqn:E'.
    + apply orb_true_iff in E'. rewrite !Z.ltb_lt in E'.
      assert (Hdiv : (a + 4) / 5 <= 5) by (apply Z.div_le_upper_bound; unfold m in *; lia).
      unfold m in *. lia.
    + unfold m. lia.
Qed.

Lemma spec_below_bound (a c : Z) :
  0 <= a < 128 -> 0 <= c < 128 -> 0 <= spec_defaultPoolScalingAlgo a c < 128.
Proof.
  intros Ha Hc. pose proof (spec_at_least_default a c) as H5.
  split; [lia|]. unfold spec_defaultPoolScalingAlgo.
  destruct (a =? 0); [lia|]. destruct (_ || _); [|lia].
  assert ((a + 4) / 5 < 128) by (apply Z.div_lt_upper_bound; lia). lia.
Qed.

(** X13. On integer statistics below 128, evaluated on doubles as the code
    does: the default algorithm never answers a capacity below 5, and it
    is stable, that is, asked again with its own answer as the current
    capacity and the same number of active objects, it answers the same
    capacity. *)
Theorem default_scaling_is_stable (a c : Z) :
  0 <= a < 128 -> 0 <= c < 128 ->
  exists m,
    to_Z (defaultOnIntegers a c) = Some m
    /\ 5 <= m
    /\ to_Z (defaultOnIntegers a m) = Some m.
Proof.
  intros Ha Hc. exists (spec_defaultPoolScalingAlgo a c).
  split; [apply (agree_below_sound 128 a c agree_below_128); lia|].
  split; [apply spec_at_least_default|].
  pose proof (spec_below_bound a c Ha Hc) as Hm.
  rewrite (agree_below_sound 128 a _ agree_below_128) by lia.
  f_equal. apply spec_stable; lia.
Qed.

Lemma default_scaling_is_stable_witness :
  exists m,
    to_Z (defaultOnIntegers 100 9) = Some m
    /\ 5 <= m
    /\ to_Z (defaultOnIntegers 100 m) = Some m.
Proof.
  assert (Ha : 0 <= 100 < 128) by lia.
  assert (Hc : 0 <= 9 < 128) by lia.
  exact (default_scaling_is_stable 100 9 Ha Hc).
Defined.

End ScalingAlgoMoreFacts.
